(** * dora-bot: walk tracking and overdue reminders (src/app.py)

    A shallow embedding of the bot's quiet-hours predicate, its SQLite store
    (tables [walks] and [chats]), the handlers that write to it, the statistics
    query and the periodic overdue sweep, followed by the properties of the
    specification that concern them.

    Conventions of the embedding.
    - A UTC instant ([now_utc()], the [ts_utc] and [last_alert_utc] columns) is
      the integer number of microseconds since the epoch.  The columns hold the
      ISO-8601 text of an aware UTC datetime; that text always has the shape
      [YYYY-MM-DDTHH:MM:SS[.ffffff]+00:00], whose lexicographic order is the
      order of the instants, and [datetime.fromisoformat] reads it back
      exactly, so [ORDER BY ts_utc] is modelled by the order of [Z].
    - A local wall-clock value is a [datetime] record of calendar fields, as
      [is_quiet] works on those fields.
    - Python floats are binary64 primitive floats.
    - A handler is a computation in a small state-and-exception monad over a
      [world]: the database, the in-memory [application.chat_data], the
      Telegram calls attempted so far and the number of clock readings taken.
      Telegram calls may raise; database statements are total. *)

From Stdlib Require Import ZArith Lia.
From Stdlib Require Import Floats.PrimFloat Floats.FloatOps Floats.SpecFloat.
From stdpp Require Import gmap strings list sorting pretty.

Local Open Scope Z_scope.

(** ** Calendar values: [datetime.time] and [datetime.datetime] *)

(** Python orders times and (same-zone) datetimes as the tuples of their
    fields, most significant first. *)
Fixpoint tuple_cmp (a b : list Z) : comparison :=
  match a, b with
  | [], [] => Eq
  | [], _ :: _ => Lt
  | _ :: _, [] => Gt
  | x :: a', y :: b' =>
      match x ?= y with
      | Eq => tuple_cmp a' b'
      | c => c
      end
  end.

Definition tuple_le (a b : list Z) : bool :=
  match tuple_cmp a b with Gt => false | _ => true end.

Record time_of_day := mk_time_of_day {
  t_hour : Z; t_minute : Z; t_second : Z; t_microsecond : Z }.

Record datetime := mk_datetime {
  year : Z; month : Z; day : Z;
  hour : Z; minute : Z; second : Z; microsecond : Z }.

Definition time_fields (t : time_of_day) : list Z :=
  [t_hour t; t_minute t; t_second t; t_microsecond t].

Definition datetime_fields (d : datetime) : list Z :=
  [year d; month d; day d; hour d; minute d; second d; microsecond d].

(** [a <= b] on [datetime.time] and on [datetime.datetime]. *)
Definition time_le (a b : time_of_day) : bool :=
  tuple_le (time_fields a) (time_fields b).

Definition datetime_le (a b : datetime) : bool :=
  tuple_le (datetime_fields a) (datetime_fields b).

(** [d.timetz()] without the zone: the time-of-day part of a datetime. *)
Definition time_of (d : datetime) : time_of_day :=
  mk_time_of_day (hour d) (minute d) (second d) (microsecond d).

(** [local_dt.replace(hour=h, minute=m, second=0, microsecond=0)]. *)
Definition replace_hm00 (d : datetime) (h m : Z) : datetime :=
  mk_datetime (year d) (month d) (day d) h m 0 0.

(** [time(hour=h, minute=m)], what [parse_hhmm] returns. *)
Definition parse_hhmm (h m : Z) : time_of_day := mk_time_of_day h m 0 0.

(** ** Configuration (module-level constants of app.py) *)

Record config := mk_config {
  MAX_HOURS : float;
  QUIET_START : time_of_day;
  QUIET_END : time_of_day;
  (** [dt.astimezone(TZ)]: the zone database is outside the program. *)
  astimezone : Z -> datetime }.

(** ** Quiet hours *)

Definition is_quiet (cfg : config) (local_dt : datetime) : bool :=
  let start := replace_hm00 local_dt (t_hour (QUIET_START cfg)) (t_minute (QUIET_START cfg)) in
  let end_ := replace_hm00 local_dt (t_hour (QUIET_END cfg)) (t_minute (QUIET_END cfg)) in
  if time_le (QUIET_START cfg) (QUIET_END cfg)
  then datetime_le start local_dt && datetime_le local_dt end_
  else (* window wraps midnight *)
       datetime_le start local_dt || datetime_le local_dt end_.

(** The predicate as the specification words it: boundaries and instant are
    all cut to the minute before they are compared. *)
Definition to_minute (t : time_of_day) : time_of_day :=
  mk_time_of_day (t_hour t) (t_minute t) 0 0.

Definition isQuiet_spec (local_instant : datetime) (window_start window_end : time_of_day) : bool :=
  let t := to_minute (time_of local_instant) in
  let s := to_minute window_start in
  let e := to_minute window_end in
  if time_le window_start window_end
  then time_le s t && time_le t e
  else time_le s t || time_le t e.

(** ** Float arithmetic used by the program *)

Definition Z2SF (z : Z) : spec_float :=
  match z with
  | 0 => S754_zero false
  | Z.pos p => S754_finite false p 0
  | Z.neg p => S754_finite true p 0
  end.

(** Python's [a / b] on two ints: the correctly rounded quotient. *)
Definition int_truediv (a b : Z) : float :=
  SF2Prim (SFdiv prec emax (Z2SF a) (Z2SF b)).

(** [float(n)] for an int. *)
Definition float_of_int (n : Z) : float :=
  SF2Prim (binary_normalize prec emax n 0 false).

(** [delta.total_seconds()] of a timedelta of [delta] microseconds. *)
Definition total_seconds (delta : Z) : float := int_truediv delta 1000000.

(** [(later - earlier).total_seconds() / 3600.0]. *)
Definition hours_between (later earlier : Z) : float :=
  (total_seconds (later - earlier) / 3600)%float.

(** [timedelta(hours=6)], in microseconds. *)
Definition six_hours : Z := 6 * 3600 * 1000000.

(** [sum(xs)]: additions from the left, starting from the int 0 (CPython
    from 3.12 on compensates the rounding errors of the additions, which can
    change the last bits of a sum of three or more terms). *)
Definition float_sum (xs : list float) : float :=
  foldl PrimFloat.add (float_of_int 0) xs.

(** [n / d] for [0 <= n], [0 < d], to the nearest integer, ties to even. *)
Definition div_half_even (n d : Z) : Z :=
  let q := n / d in
  match 2 * (n mod d) ?= d with
  | Lt => q
  | Gt => q + 1
  | Eq => if Z.even q then q else q + 1
  end.

(** The magnitude [m * 2^e] in tenths, correctly rounded. *)
Definition tenths_of (m : positive) (e : Z) : Z :=
  if 0 <=? e then Z.pos m * 10 * 2 ^ e
  else div_half_even (Z.pos m * 10) (2 ^ (- e)).

Definition sign_text (s : bool) : string := if s then "-" else "".

(** [f"{x:.1f}"]: the exact binary value rounded to one decimal, ties to
    even. *)
Definition format_1f (x : float) : string :=
  match Prim2SF x with
  | S754_zero s => sign_text s +:+ "0.0"
  | S754_infinity s => sign_text s +:+ "inf"
  | S754_nan => "nan"
  | S754_finite s m e =>
      let t := tenths_of m e in
      sign_text s +:+ pretty (t / 10) +:+ "." +:+ pretty (t mod 10)
  end.

(** ** The SQLite store *)

(** A row of [walks] without its [id], which is the key of the table. *)
Record walk := mk_walk {
  chat_id : Z;
  user_id : Z;
  user_name : string;
  ts_utc : Z;
  poop : option string }.

(** A row of [chats] without its [chat_id], which is the key of the table. *)
Record chat := mk_chat {
  title : option string;
  last_alert_utc : option Z }.

Record database := mk_database {
  walks : gmap Z walk;
  (** the AUTOINCREMENT counter of [walks] (sqlite_sequence) *)
  walks_seq : Z;
  chats : gmap Z chat }.

(** What [init_db] creates in a new file. *)
Definition init_db : database := mk_database ∅ 0 ∅.

Definition set_walks (f : gmap Z walk -> gmap Z walk) (db : database) : database :=
  mk_database (f (walks db)) (walks_seq db) (chats db).

Definition set_chats (f : gmap Z chat -> gmap Z chat) (db : database) : database :=
  mk_database (walks db) (walks_seq db) (f (chats db)).

Definition set_poop (v : option string) (w : walk) : walk :=
  mk_walk (chat_id w) (user_id w) (user_name w) (ts_utc w) v.

Definition set_last_alert_utc (v : option Z) (c : chat) : chat :=
  mk_chat (title c) v.

(** [INSERT OR IGNORE INTO chats(chat_id, title) VALUES(?, ?)] *)
Definition insert_or_ignore_chat (cid : Z) (t : option string) (db : database) : database :=
  match chats db !! cid with
  | Some _ => db
  | None => set_chats (insert cid (mk_chat t None)) db
  end.

(** The largest rowid in use (0 for an empty table). *)
Definition max_rowid (m : gmap Z walk) : Z :=
  map_fold (fun k _ acc => Z.max k acc) 0 m.

(** AUTOINCREMENT: one more than the largest rowid that ever existed. *)
Definition next_rowid (db : database) : Z :=
  Z.max (walks_seq db) (max_rowid (walks db)) + 1.

(** [INSERT INTO walks(chat_id, user_id, user_name, ts_utc, poop)
     VALUES(?, ?, ?, ?, NULL)] *)
Definition insert_walk (cid uid : Z) (name : string) (ts : Z) (db : database) : database :=
  let id := next_rowid db in
  mk_database (<[id := mk_walk cid uid name ts None]> (walks db)) id (chats db).

(** [ORDER BY ts_utc ASC] and [ORDER BY ts_utc DESC] on rows [(id, walk)].
    SQL leaves the order of rows with equal keys open; nothing below depends
    on how the sort places them. *)
Definition ts_asc (a b : Z * walk) : Prop := ts_utc a.2 ≤ ts_utc b.2.
Definition ts_desc (a b : Z * walk) : Prop := ts_utc b.2 ≤ ts_utc a.2.

#[global] Instance ts_asc_dec a b : Decision (ts_asc a b) := Z.le_dec _ _.
#[global] Instance ts_desc_dec a b : Decision (ts_desc a b) := Z.le_dec _ _.

(** [SELECT ... FROM walks WHERE chat_id=?] *)
Definition walks_of_chat (cid : Z) (db : database) : list (Z * walk) :=
  filter (fun r => chat_id r.2 = cid) (map_to_list (walks db)).

(** [SELECT ... FROM walks WHERE chat_id=? AND user_id=?] *)
Definition walks_of_user (cid uid : Z) (db : database) : list (Z * walk) :=
  filter (fun r => chat_id r.2 = cid ∧ user_id r.2 = uid) (map_to_list (walks db)).

(** [SELECT id FROM walks WHERE chat_id=? AND user_id=?
     ORDER BY ts_utc DESC LIMIT 1] *)
Definition latest_walk_id (cid uid : Z) (db : database) : option Z :=
  fst <$> head (merge_sort ts_desc (walks_of_user cid uid db)).

(** [UPDATE walks SET poop=? WHERE id = (SELECT id ... LIMIT 1)]: an empty
    subquery yields NULL, which no id equals. *)
Definition update_latest_poop (val : string) (cid uid : Z) (db : database) : database :=
  match latest_walk_id cid uid db with
  | None => db
  | Some id => set_walks (alter (set_poop (Some val)) id) db
  end.

(** [SELECT last_alert_utc FROM chats WHERE chat_id=?], then
    [... if row and row["last_alert_utc"] else None]. *)
Definition select_last_alert (cid : Z) (db : database) : option Z :=
  match chats db !! cid with
  | Some row => last_alert_utc row
  | None => None
  end.

(** [UPDATE chats SET last_alert_utc=? WHERE chat_id=?] *)
Definition update_last_alert (cid : Z) (ts : Z) (db : database) : database :=
  set_chats (alter (set_last_alert_utc (Some ts)) cid) db.

(** [last_walk_utc(chat_id)]:
    [SELECT ts_utc FROM walks WHERE chat_id=? ORDER BY ts_utc DESC LIMIT 1]. *)
Definition last_walk_utc (cid : Z) (db : database) : option Z :=
  (fun r => ts_utc r.2) <$> head (merge_sort ts_desc (walks_of_chat cid db)).

(** ** Statistics *)

(** [r["poop"] or "unknown"] *)
Definition poop_or_unknown (p : option string) : string :=
  match p with
  | Some s => if decide (s = "") then "unknown" else s
  | None => "unknown"
  end.

(** One round of the counting loop:
    [poop_counts[k] = poop_counts.get(k, 0) + 1]. *)
Definition count_poop (poop_counts : gmap string nat) (r : walk) : gmap string nat :=
  let k := poop_or_unknown (poop r) in
  <[k := (default 0%nat (poop_counts !! k) + 1)%nat]> poop_counts.

(** [[(times[i] - times[i-1]).total_seconds() / 3600.0
      for i in range(1, len(times))]] *)
Definition gaps_of (times : list Z) : list float :=
  (fun i : nat => hours_between (times !!! i) (times !!! (i - 1)%nat))
    <$> seq 1 (length times - 1).

(** The body of [chat_stats] after the query. *)
Definition stats_of_rows (rows : list walk)
  : nat * option Z * option Z * float * gmap string nat :=
  match rows with
  | [] => (0%nat, None, None, float_of_int 0, ∅)
  | _ =>
      let times := ts_utc <$> rows in
      let gaps := gaps_of times in
      let avg_gap :=
        match gaps with
        | [] => float_of_int 0
        | _ => (float_sum gaps / float_of_int (Z.of_nat (length gaps)))%float
        end in
      let poop_counts := foldl count_poop ∅ rows in
      (length rows, head times, last times, avg_gap, poop_counts)
  end.

(** [chat_stats(chat_id)]:
    [SELECT ts_utc, poop FROM walks WHERE chat_id=? ORDER BY ts_utc ASC]. *)
Definition chat_stats (cid : Z) (db : database)
  : nat * option Z * option Z * float * gmap string nat :=
  stats_of_rows (snd <$> merge_sort ts_asc (walks_of_chat cid db)).

(** The statistics as the specification words them. *)
Fixpoint consecutive_differences (times : list Z) : list float :=
  match times with
  | a :: (b :: _) as rest => hours_between b a :: consecutive_differences rest
  | _ => []
  end.

Definition mean (xs : list float) : float :=
  (float_sum xs / float_of_int (Z.of_nat (length xs)))%float.

Definition spec_average_gap_hours (events : list walk) : float :=
  if (length events <? 2)%nat then float_of_int 0
  else mean (consecutive_differences (ts_utc <$> events)).

(** Number of events whose outcome category is [k]. *)
Definition events_in_category (k : string) (events : list walk) : nat :=
  length (filter (fun r => poop_or_unknown (poop r) = k) events).

(** Sum of the values of a tally. *)
Definition tally_total (m : gmap string nat) : nat :=
  map_fold (fun _ v acc => (v + acc)%nat) 0%nat m.

(** ** Handlers: world, exceptions, monad *)

(** The Telegram calls the handlers make. *)
Inductive tg_call :=
  | SendMessage (cid : Z) (text : string)
  | ReplyText (cid : Z) (text : string) (reply_markup : list (string * string))
  | AnswerCallbackQuery
  | EditMessageText (text : string).

Inductive exn := TelegramError (c : tg_call).

Inductive result (A : Type) :=
  | Returned (a : A)
  | Raised (x : exn).
Arguments Returned {A} a.
Arguments Raised {A} x.

Record env := mk_env {
  cfg : config;
  (** the value of the [n]-th call of [datetime.now] *)
  clock : nat -> Z;
  (** whether a Telegram call goes through ([true]) or raises *)
  telegram : tg_call -> bool }.

Record world := mk_world {
  w_db : database;
  (** [application.chat_data]: chat id to that chat's dict, in insertion
      order *)
  w_chat_data : list (Z * gmap string unit);
  (** the Telegram calls attempted, oldest first *)
  w_log : list tg_call;
  (** how many times the clock was read *)
  w_reads : nat }.

(** A new process on a new database file. *)
Definition init_world : world := mk_world init_db [] [] 0.

Definition M (A : Type) : Type := env -> world -> result A * world.

#[global] Instance M_ret : MRet M := fun A a _ w => (Returned a, w).

#[global] Instance M_bind : MBind M := fun A B f m e w =>
  match m e w with
  | (Returned a, w') => f a e w'
  | (Raised x, w') => (Raised x, w')
  end.

Definition get_cfg : M config := fun e w => (Returned (cfg e), w).

(** [datetime.now(tz=ZoneInfo("UTC"))] *)
Definition now_utc : M Z := fun e w =>
  (Returned (clock e (w_reads w)),
   mk_world (w_db w) (w_chat_data w) (w_log w) (S (w_reads w))).

(** A [SELECT] inside [with db() as conn]. *)
Definition db_query {A} (q : database -> A) : M A := fun _ w =>
  (Returned (q (w_db w)), w).

(** Committed statements of a [with db() as conn] block. *)
Definition db_exec (f : database -> database) : M unit := fun _ w =>
  (Returned (), mk_world (f (w_db w)) (w_chat_data w) (w_log w) (w_reads w)).

(** An awaited Telegram call. *)
Definition tg (c : tg_call) : M unit := fun e w =>
  let w' := mk_world (w_db w) (w_chat_data w) (w_log w ++ [c]) (w_reads w) in
  if telegram e c then (Returned (), w') else (Raised (TelegramError c), w').

(** [context.chat_data]: [application.chat_data] is a defaultdict, reading the
    entry of a chat creates it. *)
Definition chat_data_entry (cid : Z) (cd : list (Z * gmap string unit))
  : list (Z * gmap string unit) :=
  if decide (cid ∈ cd.*1) then cd else cd ++ [(cid, ∅)].

(** [d.setdefault(k, {})] on the dict of chat [cid]. *)
Definition chat_data_setdefault (cid : Z) (k : string) (cd : list (Z * gmap string unit))
  : list (Z * gmap string unit) :=
  (fun p : Z * gmap string unit =>
     if decide (p.1 = cid)
     then (p.1, match p.2 !! k with Some _ => p.2 | None => <[k := ()]> p.2 end)
     else p) <$> cd.

Definition update_chat_data (f : list (Z * gmap string unit) -> list (Z * gmap string unit))
  : M unit := fun _ w =>
  (Returned (), mk_world (w_db w) (f (w_chat_data w)) (w_log w) (w_reads w)).

(** [list(context.application.chat_data.keys())] *)
Definition chat_data_keys : M (list Z) := fun _ w =>
  (Returned ((w_chat_data w).*1), w).

(** [for x in xs: await body(x)] *)
Fixpoint for_each {A} (xs : list A) (body : A -> M unit) : M unit :=
  match xs with
  | [] => mret ()
  | x :: xs' => body x;; for_each xs' body
  end.

(** ** Handlers *)

(** What the handlers read of an incoming [Update]. *)
Record update := mk_update {
  effective_chat_id : Z;
  effective_chat_title : option string;
  effective_user_id : Z;
  effective_user_full_name : string;
  effective_user_first_name : string }.

(** What [handle_poop_vote] reads of [update.callback_query]. *)
Record callback_query := mk_callback_query {
  data : string;
  message_chat_id : Z;
  from_user_id : Z }.

Definition send_poop_poll (u : update) : M unit :=
  let keyboard :=
    [("👍 Normal", "poop_ok"); ("😕 Blanda", "poop_soft");
     ("💧 Diarrea", "poop_diarrhea"); ("❌ No caca", "poop_none")] in
  tg (ReplyText (effective_chat_id u) "¿Cómo ha hecho la caca?" keyboard).

Definition log_walk (u : update) : M unit :=
  db_exec (insert_or_ignore_chat (effective_chat_id u) (effective_chat_title u));;
  now ← now_utc;
  db_exec (insert_walk (effective_chat_id u) (effective_user_id u)
             (effective_user_full_name u) now);;
  tg (ReplyText (effective_chat_id u)
        ("✅ Paseo por " +:+ effective_user_first_name u +:+ " guardado. Gracias!") []);;
  send_poop_poll u.

Definition mapping : gmap string string :=
  list_to_map [("poop_ok", "Normal"); ("poop_soft", "Blanda");
               ("poop_diarrhea", "Diarrea"); ("poop_none", "none")].

Definition handle_poop_vote (q : callback_query) : M unit :=
  tg AnswerCallbackQuery;;
  match mapping !! data q with
  | None => mret ()
  | Some val =>
      if decide (val = "") then mret ()
      else
        db_exec (update_latest_poop val (message_chat_id q) (from_user_id q));;
        tg (EditMessageText ("✅ Caca " +:+ val +:+ " guardada"))
  end.

Definition alert_text (hours : float) : string :=
  "⏰ Han pasado " +:+ format_1f hours
  +:+ "h desde la última salida de Dora. Alguien la puede sacar?".

Definition maybe_alert_chat (cid : Z) : M unit :=
  last ← db_query (last_walk_utc cid);
  match last with
  | None => mret ()
  | Some last =>
      now1 ← now_utc;
      let hours := hours_between now1 last in
      c ← get_cfg;
      if (hours <? MAX_HOURS c)%float then mret ()
      else
        (* throttle: one alert max every 6 hours *)
        last_alert ← db_query (select_last_alert cid);
        now2 ← now_utc;
        let local_now := astimezone c now2 in
        if is_quiet c local_now then mret ()
        else
          throttled ← match last_alert with
                      | None => mret false
                      | Some la => now3 ← now_utc; mret (bool_decide (now3 - la < six_hours))
                      end;
          if throttled : bool then mret ()
          else
            tg (SendMessage cid (alert_text hours));;
            now4 ← now_utc;
            db_exec (update_last_alert cid now4)
  end.

Definition overdue_check : M unit :=
  keys ← chat_data_keys;
  for_each keys maybe_alert_chat.

Definition start (u : update) : M unit :=
  (* remember the chat so schedulers know where to post *)
  update_chat_data (chat_data_entry (effective_chat_id u));;
  update_chat_data (chat_data_setdefault (effective_chat_id u) (pretty (effective_chat_id u)));;
  db_exec (insert_or_ignore_chat (effective_chat_id u) (effective_chat_title u));;
  tg (ReplyText (effective_chat_id u)
        "Hola! Envía /paseo cuando saques a Dora, y luego selecciona cómo ha hecho la caca." []).

(** The requests that reach a handler writing to the store.  [cmd_walk] and
    [keyword_listener] only call [log_walk]; [cmd_stats], [cmd_csv] and
    [daily_digest] only read. *)
Inductive request :=
  | Start (u : update)
  | Walk (u : update)
  | Vote (q : callback_query)
  | Tick.

Definition handle (r : request) : M unit :=
  match r with
  | Start u => start u
  | Walk u => log_walk u
  | Vote q => handle_poop_vote q
  | Tick => overdue_check
  end.

(** ** The alert decision *)

Inductive AlertAction :=
  | NoAction
  | Emit (message_text : string).

(** The five steps as the program takes them, with the instant of each clock
    reading kept apart: [t_elapsed] is read for step 2, [t_local] for step 3,
    [t_throttle] for step 4.  Step 3 is the program's quiet test [is_quiet],
    which keeps the seconds of the local instant. *)
Definition decide_alert (c : config) (latest_event_time last_alert_at : option Z)
    (t_elapsed t_local t_throttle : Z) : AlertAction :=
  match latest_event_time with
  | None => NoAction
  | Some latest =>
      let elapsed_hours := hours_between t_elapsed latest in
      if (elapsed_hours <? MAX_HOURS c)%float then NoAction
      else if is_quiet c (astimezone c t_local) then NoAction
      else match last_alert_at with
           | Some la =>
               if bool_decide (t_throttle - la < six_hours) then NoAction
               else Emit (alert_text elapsed_hours)
           | None => Emit (alert_text elapsed_hours)
           end
  end.

(** The same decision with one instant for the whole evaluation. *)
Definition evaluate (c : config) (db : database) (group_id : Z) (now : Z) : AlertAction :=
  decide_alert c (last_walk_utc group_id db) (select_last_alert group_id db) now now now.

(** [evaluate(group_id, now_utc)] as the specification words it: the same
    five steps, but step 3 is the minute-granular [isQuiet] of the
    specification. *)
Definition spec_evaluate (c : config) (db : database) (group_id : Z) (now_utc : Z)
  : AlertAction :=
  match last_walk_utc group_id db with
  | None => NoAction
  | Some latest_event_time =>
      let elapsed_hours := hours_between now_utc latest_event_time in
      if (elapsed_hours <? MAX_HOURS c)%float then NoAction
      else if isQuiet_spec (astimezone c now_utc) (QUIET_START c) (QUIET_END c)
      then NoAction
      else match select_last_alert group_id db with
           | Some last_alert_at =>
               if bool_decide (now_utc - last_alert_at < six_hours) then NoAction
               else Emit (alert_text elapsed_hours)
           | None => Emit (alert_text elapsed_hours)
           end
  end.

(** The Telegram calls a handler attempted, given the log before and after. *)
Definition attempted (before after : world) : list tg_call :=
  drop (length (w_log before)) (w_log after).


(** A clock that stands still during an evaluation. *)
Definition frozen (now : Z) : nat -> Z := fun _ => now.

(** ** A concrete deployment for the examples *)

(** Days since 1970-01-01 to (year, month, day), proleptic Gregorian. *)
Definition civil_from_days (n : Z) : Z * Z * Z :=
  let z := n + 719468 in
  let era := z / 146097 in
  let doe := z - era * 146097 in
  let yoe := (doe - doe / 1460 + doe / 36524 - doe / 146096) / 365 in
  let doy := doe - (365 * yoe + yoe / 4 - yoe / 100) in
  let mp := (5 * doy + 2) / 153 in
  let d := doy - (153 * mp + 2) / 5 + 1 in
  let m := if mp <? 10 then mp + 3 else mp - 9 in
  (if m <=? 2 then yoe + era * 400 + 1 else yoe + era * 400, m, d).

(** (year, month, day) to days since 1970-01-01. *)
Definition days_from_civil (y m d : Z) : Z :=
  let y' := if m <=? 2 then y - 1 else y in
  let era := y' / 400 in
  let yoe := y' - era * 400 in
  let doy := (153 * (if 2 <? m then m - 3 else m + 9) + 2) / 5 + d - 1 in
  let doe := yoe * 365 + yoe / 4 - yoe / 100 + doy in
  era * 146097 + doe - 719468.

(** The UTC instant of a calendar date and time. *)
Definition utc (y m d hh mm ss : Z) : Z :=
  ((days_from_civil y m d * 24 + hh) * 60 + mm) * 60 * 1000000 + ss * 1000000.

(** [astimezone] for a zone at a fixed offset from UTC. *)
Definition fixed_offset (minutes : Z) (t : Z) : datetime :=
  let local := t + minutes * 60 * 1000000 in
  let '(y, m, d) := civil_from_days (local / 86400000000) in
  let r := local mod 86400000000 in
  mk_datetime y m d (r / 3600000000) (r / 60000000 mod 60)
              (r / 1000000 mod 60) (r mod 1000000).

(** The defaults of app.py: 6 hours, quiet from 23:00 to 07:30, and
    Europe/Madrid on a winter day (UTC+1). *)
Definition default_config : config :=
  mk_config 6%float (parse_hhmm 23 0) (parse_hhmm 7 30) (fixed_offset 60).

(** A store with one walk in chat 7 by user 42 at instant [t]. *)
Definition one_walk (t : Z) : database :=
  insert_walk 7 42 "Ana" t (insert_or_ignore_chat 7 (Some "Casa") init_db).

Definition world_of (db : database) : world := mk_world db [(7, ∅)] [] 0.

Definition always_delivers : tg_call -> bool := fun _ => true.

(** Which clock reading stamps [last_alert_utc] when an evaluation that
    started at reading [n] sends its message: the throttle test reads the
    clock only when there is an earlier alert. *)
Definition stamp_reading (last_alert : option Z) (n : nat) : nat :=
  match last_alert with
  | Some _ => S (S (S n))
  | None => S (S n)
  end.

Definition never_delivers : tg_call -> bool := fun _ => false.

(** Every call goes through except a [send_message] to chat [cid]. *)
Definition delivers_except (cid : Z) : tg_call -> bool := fun c =>
  match c with
  | SendMessage cid' _ => negb (bool_decide (cid' = cid))
  | _ => true
  end.

(** A sequence of requests handled one after the other; a handler that
    raises only ends its own request. *)
Definition handle_all (rs : list request) (e : env) (w : world) : world :=
  foldl (fun w r => (handle r e w).2) w rs.

(** An update from user 42 ("Ana") in chat [cid]. *)
Definition update_in (cid : Z) : update := mk_update cid (Some "Casa") 42 "Ana P" "Ana".

(** The environment of the examples at a fixed instant. *)
Definition at_instant (now : Z) (deliver : tg_call -> bool) : env :=
  mk_env default_config (frozen now) deliver.

(** Chats 7 and 8 have each sent /start and reported a walk at 06:00 UTC. *)
Definition two_chats_walked : world :=
  handle_all [Start (update_in 7); Walk (update_in 7);
              Start (update_in 8); Walk (update_in 8)]
    (at_instant (utc 2024 1 15 6 0 0) always_delivers) init_world.

(** Chat 7 has reported a walk at 06:00 UTC without ever sending /start. *)
Definition walked_without_start : world :=
  handle_all [Walk (update_in 7)]
    (at_instant (utc 2024 1 15 6 0 0) always_delivers) init_world.

(** A clock that advances by one hour at each reading, from [t0]. *)
Definition ticking (t0 : Z) : nat -> Z := fun n => t0 + Z.of_nat n * 3600000000.

(** Walks at the given hour offsets from the epoch, outcome unset. *)
Definition walks_at_hours (hs : list Z) : list walk :=
  (fun h => mk_walk 7 42 "Ana" (h * 3600000000) None) <$> hs.

(** The world of a new process on the database another one left: the tables
    persist in the file, [application.chat_data] starts empty (the
    application is built without persistence). *)
Definition restart (w : world) : world := mk_world (w_db w) [] [] 0.

(** The invariant of the two tables: the chat of every walk has a row in
    [chats]. *)
Definition walks_have_chat (db : database) : Prop :=
  forall id row, walks db !! id = Some row -> is_Some (chats db !! chat_id row).

(** ** Read-only handlers: statistics and the daily digest *)

(** The line feed of the f-strings. *)
Definition nl : string := String (Ascii.ascii_of_nat 10) "".

(** A two-digit field of [strftime] ([%H], [%M], [%d], [%m]). *)
Definition pad2 (n : Z) : string :=
  if n <? 10 then "0" +:+ pretty n else pretty n.

(** [d.strftime("%Y-%m-%d %H:%M")] (glibc prints [%Y] without padding). *)
Definition strftime_Ymd_HM (d : datetime) : string :=
  pretty (year d) +:+ "-" +:+ pad2 (month d) +:+ "-" +:+ pad2 (day d)
  +:+ " " +:+ pad2 (hour d) +:+ ":" +:+ pad2 (minute d).

(** [d.strftime("%H:%M %d-%m")] *)
Definition strftime_HM_dm (d : datetime) : string :=
  pad2 (hour d) +:+ ":" +:+ pad2 (minute d) +:+ " " +:+ pad2 (day d)
  +:+ "-" +:+ pad2 (month d).

(** [sep.join(xs)] *)
Fixpoint join (sep : string) (xs : list string) : string :=
  match xs with
  | [] => ""
  | [x] => x
  | x :: rest => x +:+ sep +:+ join sep rest
  end.

(** [poop_counts] as the dict Python builds, with its insertion order:
    [d[k] = d.get(k, 0) + 1] keeps the place of a key that is present and
    appends a new one. *)
Fixpoint dict_incr (k : string) (items : list (string * nat)) : list (string * nat) :=
  match items with
  | [] => [(k, 1%nat)]
  | (k', v) :: rest =>
      if decide (k' = k) then (k', (v + 1)%nat) :: rest
      else (k', v) :: dict_incr k rest
  end.

Definition poop_items (rows : list walk) : list (string * nat) :=
  foldl (fun items r => dict_incr (poop_or_unknown (poop r)) items) [] rows.

(** [poop_counts.items()] of [chat_stats(chat_id)]. *)
Definition chat_poop_items (cid : Z) (db : database) : list (string * nat) :=
  poop_items (snd <$> merge_sort ts_asc (walks_of_chat cid db)).

(** [", ".join([f"{k}: {v}" for k, v in poop_counts.items()])] *)
Definition poop_str (items : list (string * nat)) : string :=
  join ", " ((fun kv : string * nat => kv.1 +:+ ": " +:+ pretty kv.2) <$> items).

Definition stats_text (c : config) (total : nat) (first last : Z) (avg_gap : float)
    (items : list (string * nat)) : string :=
  "📊 Paseos: " +:+ pretty total +:+ nl
  +:+ "Primero: " +:+ strftime_Ymd_HM (astimezone c first) +:+ nl
  +:+ "Último: " +:+ strftime_Ymd_HM (astimezone c last) +:+ nl
  +:+ "Tiempo medio entre paseos: " +:+ format_1f avg_gap +:+ " h" +:+ nl
  +:+ "Cacas: " +:+ poop_str items.

(** [cmd_stats].  [chat_stats] returns both timestamps whenever the total is
    not 0, so the last branch is never taken. *)
Definition cmd_stats (u : update) : M unit :=
  let cid := effective_chat_id u in
  st ← db_query (chat_stats cid);
  items ← db_query (chat_poop_items cid);
  c ← get_cfg;
  match st with
  | (O, _, _, _, _) => tg (ReplyText cid "No hay ningún paseo registrado aún." [])
  | (total, Some first, Some last, avg_gap, _) =>
      tg (ReplyText cid (stats_text c total first last avg_gap items) [])
  | _ => mret ()
  end.

Definition digest_text (c : config) (total : nat) (last : Z) (avg_gap : float)
    (items : list (string * nat)) : string :=
  "☀️ Resumen diario de ayer" +:+ nl
  +:+ "Paseos: " +:+ pretty total +:+ " | Last: " +:+ strftime_HM_dm (astimezone c last) +:+ nl
  +:+ "Tiempo medio entre paseos: " +:+ format_1f avg_gap +:+ " h" +:+ nl
  +:+ "Cacas: " +:+ poop_str items.

(** One round of the loop of [daily_digest]. *)
Definition digest_chat (cid : Z) : M unit :=
  st ← db_query (chat_stats cid);
  items ← db_query (chat_poop_items cid);
  c ← get_cfg;
  match st with
  | (O, _, _, _, _) => mret ()
  | (total, _, Some last, avg_gap, _) =>
      tg (SendMessage cid (digest_text c total last avg_gap items))
  | _ => mret ()
  end.

Definition daily_digest : M unit :=
  (* simple morning digest for each chat the bot has seen *)
  keys ← chat_data_keys;
  for_each keys digest_chat.

(** ** Free-text trigger *)

Fixpoint starts_with (t s : string) : bool :=
  match t, s with
  | EmptyString, _ => true
  | String a t', String b s' => if decide (a = b) then starts_with t' s' else false
  | String _ _, EmptyString => false
  end.

(** [t in s] on strings. *)
Fixpoint is_infix (t s : string) : bool :=
  starts_with t s ||
  match s with
  | EmptyString => false
  | String _ s' => is_infix t s'
  end.

Definition triggers : list string :=
  ["walk"; "out"; "paseo"; "salida"; "he salido con dora"; "sacado a dora"].

(** [keyword_listener]; [str_strip] and [str_lower] are Python's [str.strip]
    and [str.lower], and [message_text] is [update.message.text]. *)
Definition keyword_listener (str_strip str_lower : string -> string)
    (message_text : option string) (u : update) : M unit :=
  let text := str_lower (str_strip (default "" message_text)) in
  if existsb (fun t => is_infix t (str_lower text)) triggers
  then log_walk u
  else mret ().

(** [str.lower] and [str.strip] on ASCII text. *)
Definition ascii_lower_char (a : Ascii.ascii) : Ascii.ascii :=
  let n := Ascii.nat_of_ascii a in
  if (65 <=? n)%nat && (n <=? 90)%nat then Ascii.ascii_of_nat (n + 32) else a.

Fixpoint ascii_lower (s : string) : string :=
  match s with
  | EmptyString => EmptyString
  | String a s' => String (ascii_lower_char a) (ascii_lower s')
  end.

Definition ascii_space (a : Ascii.ascii) : bool :=
  let n := Ascii.nat_of_ascii a in
  ((9 <=? n)%nat && (n <=? 13)%nat) || ((28 <=? n)%nat && (n <=? 32)%nat).

Fixpoint lstrip (s : string) : string :=
  match s with
  | String a s' => if ascii_space a then lstrip s' else s
  | EmptyString => EmptyString
  end.

Fixpoint rstrip (s : string) : string :=
  match s with
  | EmptyString => EmptyString
  | String a s' =>
      match rstrip s' with
      | EmptyString => if ascii_space a then EmptyString else String a EmptyString
      | r => String a r
      end
  end.

Definition ascii_strip (s : string) : string := rstrip (lstrip s).

(** ** Everything that happens to a world *)

(** The events below are the handlers that are modelled and a restart of the
    process.  [cmd_csv], which is not modelled, only reads the store. *)

Inductive event :=
  | Request (r : request)
  | Keyword (message_text : option string) (u : update)
  | Stats (u : update)
  | Digest
  | Restart.

Definition step (str_strip str_lower : string -> string) (ev : event) (e : env) (w : world)
  : world :=
  match ev with
  | Request r => (handle r e w).2
  | Keyword t u => (keyword_listener str_strip str_lower t u e w).2
  | Stats u => (cmd_stats u e w).2
  | Digest => (daily_digest e w).2
  | Restart => restart w
  end.

(** The worlds the bot can be in: a new database, then any events under any
    clock, transport and configuration. *)
Inductive reachable : world -> Prop :=
  | reachable_init : reachable init_world
  | reachable_step str_strip str_lower ev e w :
      reachable w -> reachable (step str_strip str_lower ev e w).

(** The chat a Telegram call is addressed to, when it names one. *)
Definition call_chat (c : tg_call) : option Z :=
  match c with
  | SendMessage cid _ => Some cid
  | ReplyText cid _ _ => Some cid
  | _ => None
  end.

(** A chat row after some events: still there, same title, and its
    [last_alert_utc] either as before or set. *)
Definition chat_rows_kept (db db' : database) : Prop :=
  forall c row, chats db !! c = Some row ->
    exists row', chats db' !! c = Some row' /\ title row' = title row
      /\ (last_alert_utc row' = last_alert_utc row \/ is_Some (last_alert_utc row')).

(** The chat whose walks an event can write to, if any. *)
Definition event_chat (ev : event) : option Z :=
  match ev with
  | Request (Walk u) => Some (effective_chat_id u)
  | Request (Vote q) => Some (message_chat_id q)
  | Keyword _ u => Some (effective_chat_id u)
  | _ => None
  end.

(** The message the digest has for a chat: none for a chat without walks. *)
Definition digest_message (c : config) (db : database) (cid : Z) : option tg_call :=
  match chat_stats cid db with
  | (O, _, _, _, _) => None
  | (total, _, Some last, avg_gap, _) =>
      Some (SendMessage cid (digest_text c total last avg_gap (chat_poop_items cid db)))
  | _ => None
  end.

(** The reply of /stats in a chat without walks. *)
Definition no_walks_text : string := "No hay ningún paseo registrado aún.".

(** The statements that write to the store. *)
Inductive db_step : database -> database -> Prop :=
  | db_step_chat cid t db :
      db_step db (insert_or_ignore_chat cid t db)
  | db_step_walk cid uid name ts db :
      is_Some (chats db !! cid) ->
      db_step db (insert_walk cid uid name ts db)
  | db_step_vote tok val cid uid db :
      mapping !! tok = Some val ->
      db_step db (update_latest_poop val cid uid db)
  | db_step_alert cid ts db :
      is_Some (last_walk_utc cid db) ->
      db_step db (update_last_alert cid ts db).

(** What holds of the store in every reachable world. *)
Definition store_inv (db : database) : Prop :=
  walks_have_chat db
  /\ 0 ≤ walks_seq db
  /\ (forall id, is_Some (walks db !! id) <-> 1 ≤ id ≤ walks_seq db)
  /\ (forall id row s, walks db !! id = Some row -> poop row = Some s ->
        exists tok, mapping !! tok = Some s)
  /\ (forall cid t, select_last_alert cid db = Some t -> is_Some (last_walk_utc cid db)).

(** What holds of the registry in every reachable world. *)
Definition registry_inv (w : world) : Prop :=
  NoDup (w_chat_data w).*1
  /\ forall cid, cid ∈ (w_chat_data w).*1 -> is_Some (chats (w_db w) !! cid).

(** * Properties *)

(** ** Quiet hours *)

Lemma tuple_cmp_refl a : tuple_cmp a a = Eq.
Proof. induction a as [|x a IH]; simpl; [done|]. by rewrite Z.compare_refl. Qed.

(** Datetimes of one calendar day compare as their times of day. *)
Lemma datetime_le_same_day y m d h1 mi1 s1 u1 h2 mi2 s2 u2 :
  datetime_le (mk_datetime y m d h1 mi1 s1 u1) (mk_datetime y m d h2 mi2 s2 u2)
  = time_le (mk_time_of_day h1 mi1 s1 u1) (mk_time_of_day h2 mi2 s2 u2).
Proof.
  unfold datetime_le, time_le, tuple_le, datetime_fields, time_fields; simpl.
  by rewrite !Z.compare_refl.
Qed.

(** A time is never before itself cut to the minute, and cutting to the
    minute keeps the order. *)
Lemma to_minute_le t : time_le (to_minute t) (to_minute t) = true.
Proof. unfold time_le, tuple_le. by rewrite tuple_cmp_refl. Qed.

Lemma to_minute_mono a b :
  time_le a b = true -> time_le (to_minute a) (to_minute b) = true.
Proof.
  destruct a as [h1 m1 s1 u1], b as [h2 m2 s2 u2].
  unfold time_le, tuple_le, to_minute, time_fields; simpl.
  destruct (h1 ?= h2); [|done|done].
  destruct (m1 ?= m2); done.
Qed.

(** C1, refuted as stated: with the default window 23:00 to 07:30, the local
    instant 07:30:30 is not quiet for [is_quiet], although cut to the minute
    it equals the end of the window, which the specification calls quiet. *)
Lemma is_quiet_end_minute_not_quiet :
  is_quiet default_config (mk_datetime 2024 1 15 7 30 30 0) = false
  /\ isQuiet_spec (mk_datetime 2024 1 15 7 30 30 0)
       (QUIET_START default_config) (QUIET_END default_config) = true.
Proof. split; reflexivity. Qed.

(** C1, amended: [is_quiet] cuts only the window boundaries to the minute and
    compares the evaluated instant with its seconds and microseconds.  It holds
    iff [start:00 <= t <= end:00] when the window does not wrap, and iff
    [t >= start:00] or [t <= end:00] when it wraps; the two instants that are
    exactly a window edge (seconds and microseconds zero) are quiet. *)
Theorem is_quiet_compares_full_instant (c : config) (t : datetime) :
  let s := to_minute (QUIET_START c) in
  let e := to_minute (QUIET_END c) in
  is_quiet c t =
    (if time_le (QUIET_START c) (QUIET_END c)
     then time_le s (time_of t) && time_le (time_of t) e
     else time_le s (time_of t) || time_le (time_of t) e)
  /\ is_quiet c (replace_hm00 t (t_hour s) (t_minute s)) = true
  /\ is_quiet c (replace_hm00 t (t_hour e) (t_minute e)) = true.
Proof.
  assert (Hgen : forall t', is_quiet c t' =
    (if time_le (QUIET_START c) (QUIET_END c)
     then time_le (to_minute (QUIET_START c)) (time_of t')
          && time_le (time_of t') (to_minute (QUIET_END c))
     else time_le (to_minute (QUIET_START c)) (time_of t')
          || time_le (time_of t') (to_minute (QUIET_END c)))).
  { intros [y m d h mi sec us]. unfold is_quiet, replace_hm00; simpl.
    by rewrite !datetime_le_same_day. }
  cbv zeta. split; [apply Hgen|].
  split; rewrite Hgen; unfold replace_hm00, time_of; simpl;
    fold (to_minute (QUIET_START c)); fold (to_minute (QUIET_END c));
    rewrite to_minute_le;
    destruct (time_le (QUIET_START c) (QUIET_END c)) eqn:Hle; simpl;
    rewrite ?orb_true_r; try done.
  all: rewrite ?andb_true_r; by apply to_minute_mono.
Qed.

(** ** The store: queries *)

#[global] Instance ts_desc_trans : Transitive ts_desc.
Proof. unfold ts_desc. intros a b c ??. lia. Qed.
#[global] Instance ts_desc_total : Total ts_desc.
Proof. unfold ts_desc. intros a b. lia. Qed.
#[global] Instance ts_asc_trans : Transitive ts_asc.
Proof. unfold ts_asc. intros a b c ??. lia. Qed.
#[global] Instance ts_asc_total : Total ts_asc.
Proof. unfold ts_asc. intros a b. lia. Qed.

Section order_by_limit_1.
Context (R : relation (Z * walk)) `{!forall a b, Decision (R a b)}.
Context `{!Transitive R, !Total R}.

(** [ORDER BY ... LIMIT 1] returns nothing only on an empty selection. *)
Lemma head_sorted_None (l : list (Z * walk)) :
  head (merge_sort R l) = None <-> l = [].
Proof.
  rewrite head_None. split.
  - intros E. apply Permutation_nil_r. rewrite <- E.
    symmetry. apply merge_sort_Permutation.
  - intros ->. done.
Qed.

(** The row it returns is one of the selection and comes first in the
    order among all of them. *)
Lemma head_sorted_Some (l : list (Z * walk)) (x : Z * walk) :
  head (merge_sort R l) = Some x ->
  x ∈ l /\ forall y, y ∈ l -> R x y.
Proof.
  intros E.
  pose proof (StronglySorted_merge_sort R l) as Hs.
  pose proof (merge_sort_Permutation R l) as Hp.
  destruct (merge_sort R l) as [|x' rest]; simplify_eq/=.
  split.
  - rewrite <- Hp. left.
  - intros y Hy. rewrite <- Hp in Hy.
    apply StronglySorted_inv in Hs as [_ Hall].
    apply elem_of_cons in Hy as [->|Hy].
    + destruct (total R x x); done.
    + by eapply Forall_forall in Hall.
Qed.
End order_by_limit_1.

Lemma elem_of_walks_of_user cid uid db id w :
  (id, w) ∈ walks_of_user cid uid db
  <-> walks db !! id = Some w /\ chat_id w = cid /\ user_id w = uid.
Proof.
  unfold walks_of_user. rewrite list_elem_of_filter, elem_of_map_to_list. simpl.
  tauto.
Qed.

Lemma elem_of_walks_of_chat cid db id w :
  (id, w) ∈ walks_of_chat cid db
  <-> walks db !! id = Some w /\ chat_id w = cid.
Proof.
  unfold walks_of_chat. rewrite list_elem_of_filter, elem_of_map_to_list. simpl.
  tauto.
Qed.

(** The subquery of the vote finds no row exactly when the user has no walk
    in the chat. *)
Lemma latest_walk_id_None cid uid db :
  latest_walk_id cid uid db = None <-> walks_of_user cid uid db = [].
Proof.
  unfold latest_walk_id. rewrite fmap_None. apply head_sorted_None.
Qed.

(** Otherwise it finds a walk of that user in that chat that no other walk of
    the pair is later than. *)
Lemma latest_walk_id_Some cid uid db id :
  latest_walk_id cid uid db = Some id ->
  exists w, walks db !! id = Some w /\ chat_id w = cid /\ user_id w = uid
    /\ forall id' w', walks db !! id' = Some w' -> chat_id w' = cid ->
         user_id w' = uid -> ts_utc w' ≤ ts_utc w.
Proof.
  unfold latest_walk_id. intros E.
  apply fmap_Some in E as ([id0 w] & E & ->). simpl.
  apply head_sorted_Some in E as [Hin Hmax]; [|apply _..].
  apply elem_of_walks_of_user in Hin as (Hw & Hc & Hu).
  exists w. repeat split; try done.
  intros id' w' Hw' Hc' Hu'.
  apply (Hmax (id', w')). by apply elem_of_walks_of_user.
Qed.

(** [last_walk_utc] is the latest timestamp of the chat, if it has a walk. *)
Lemma last_walk_utc_None cid db :
  last_walk_utc cid db = None <-> walks_of_chat cid db = [].
Proof.
  unfold last_walk_utc. rewrite fmap_None. apply head_sorted_None.
Qed.

Lemma last_walk_utc_Some cid db t :
  last_walk_utc cid db = Some t ->
  (exists id w, walks db !! id = Some w /\ chat_id w = cid /\ ts_utc w = t)
  /\ forall id' w', walks db !! id' = Some w' -> chat_id w' = cid -> ts_utc w' ≤ t.
Proof.
  unfold last_walk_utc. intros E.
  apply fmap_Some in E as ([id0 w] & E & ->). simpl.
  apply head_sorted_Some in E as [Hin Hmax]; [|apply _..].
  apply elem_of_walks_of_chat in Hin as (Hw & Hc).
  split; [by exists id0, w|].
  intros id' w' Hw' Hc'.
  apply (Hmax (id', w')). by apply elem_of_walks_of_chat.
Qed.

(** ** Outcome votes *)

Ltac run_handler :=
  unfold mbind, M_bind, mret, M_ret, tg, db_exec, db_query, now_utc, get_cfg,
    update_chat_data, chat_data_keys; simpl.

Lemma mapping_lookup_unknown (tok : string) :
  tok ∉ ["poop_ok"; "poop_soft"; "poop_diarrhea"; "poop_none"] ->
  mapping !! tok = None.
Proof.
  rewrite !not_elem_of_cons. intros (? & ? & ? & ? & _).
  unfold mapping; simpl.
  by rewrite !lookup_insert_ne, lookup_empty.
Qed.

Lemma mapping_values_nonempty (tok val : string) :
  mapping !! tok = Some val -> val ≠ "".
Proof.
  unfold mapping; simpl. intros E.
  repeat (apply lookup_insert_Some in E as [[_ <-]|[_ E]]; [done|]).
  by rewrite lookup_empty in E.
Qed.

(** What the UPDATE of the vote does to the tables. *)
Lemma update_latest_poop_tables (val : string) (cid uid : Z) (db : database) :
  chats (update_latest_poop val cid uid db) = chats db
  /\ walks_seq (update_latest_poop val cid uid db) = walks_seq db
  /\ walks (update_latest_poop val cid uid db) =
       match latest_walk_id cid uid db with
       | None => walks db
       | Some id => alter (set_poop (Some val)) id (walks db)
       end.
Proof. unfold update_latest_poop. by destruct (latest_walk_id cid uid db). Qed.

(** The database after a vote: untouched unless the query was acknowledged
    and carried a recognised token. *)
Lemma handle_poop_vote_db (e : env) (w : world) (q : callback_query) :
  w_db (handle_poop_vote q e w).2 =
    match mapping !! data q with
    | Some val =>
        if telegram e AnswerCallbackQuery
        then update_latest_poop val (message_chat_id q) (from_user_id q) (w_db w)
        else w_db w
    | None => w_db w
    end.
Proof.
  unfold handle_poop_vote. run_handler.
  destruct (telegram e AnswerCallbackQuery); simpl;
    destruct (mapping !! data q) as [val|] eqn:E; simpl; try done.
  destruct (decide (val = "")) as [->|_]; simpl.
  - by apply mapping_values_nonempty in E.
  - by destruct (telegram e _).
Qed.

(** A vote raises only when a Telegram call does. *)
Lemma handle_poop_vote_raises (e : env) (w : world) (q : callback_query) (x : exn) :
  (handle_poop_vote q e w).1 = Raised x ->
  exists c, x = TelegramError c /\ telegram e c = false.
Proof.
  unfold handle_poop_vote. run_handler.
  destruct (telegram e AnswerCallbackQuery) eqn:Ha; simpl.
  - destruct (mapping !! data q) as [val|]; simpl; [|done].
    destruct (decide (val = "")); simpl; [done|].
    destruct (telegram e (EditMessageText _)) eqn:He; simpl; [done|].
    intros [= <-]. eauto.
  - intros [= <-]. eauto.
Qed.

(** C8: a vote changes at most one row of [walks], the one the subquery
    selects: a walk of the voting user in that chat whose timestamp no other
    walk of the pair exceeds; only its [poop] column changes.  Every other
    row, the [chats] table and the row counter stay as they were; when the
    user has no walk in the chat the store is unchanged, and the handler
    raises only if a Telegram call fails. *)
Theorem handle_poop_vote_frame (e : env) (w : world) (q : callback_query) :
  let w' := (handle_poop_vote q e w).2 in
  let cid := message_chat_id q in
  let uid := from_user_id q in
  chats (w_db w') = chats (w_db w)
  /\ walks_seq (w_db w') = walks_seq (w_db w)
  /\ (walks_of_user cid uid (w_db w) = [] -> w_db w' = w_db w)
  /\ (forall x, (handle_poop_vote q e w).1 = Raised x ->
        exists c, x = TelegramError c /\ telegram e c = false)
  /\ exists target : option Z,
       (forall id, target ≠ Some id ->
          walks (w_db w') !! id = walks (w_db w) !! id)
       /\ (forall id, target = Some id ->
             exists row val,
               walks (w_db w) !! id = Some row
               /\ mapping !! data q = Some val
               /\ chat_id row = cid /\ user_id row = uid
               /\ (forall id' row', walks (w_db w) !! id' = Some row' ->
                     chat_id row' = cid -> user_id row' = uid ->
                     ts_utc row' ≤ ts_utc row)
               /\ walks (w_db w') !! id = Some (set_poop (Some val) row)).
Proof.
  cbv zeta. rewrite handle_poop_vote_db.
  set (cid := message_chat_id q). set (uid := from_user_id q).
  assert (Hnoop : chats (w_db w) = chats (w_db w)
    /\ walks_seq (w_db w) = walks_seq (w_db w)
    /\ (walks_of_user cid uid (w_db w) = [] -> w_db w = w_db w)
    /\ (forall x, (handle_poop_vote q e w).1 = Raised x ->
          exists c, x = TelegramError c /\ telegram e c = false)
    /\ exists target : option Z,
       (forall id, target ≠ Some id -> walks (w_db w) !! id = walks (w_db w) !! id)
       /\ (forall id, target = Some id ->
             exists row val,
               walks (w_db w) !! id = Some row
               /\ mapping !! data q = Some val
               /\ chat_id row = cid /\ user_id row = uid
               /\ (forall id' row', walks (w_db w) !! id' = Some row' ->
                     chat_id row' = cid -> user_id row' = uid ->
                     ts_utc row' ≤ ts_utc row)
               /\ walks (w_db w) !! id = Some (set_poop (Some val) row))).
  { repeat split; try done; [apply handle_poop_vote_raises|].
    exists None. split; [done|]. intros id [=]. }
  destruct (mapping !! data q) as [val|] eqn:Hval; [|exact Hnoop].
  destruct (telegram e AnswerCallbackQuery); [|exact Hnoop].
  clear Hnoop.
  destruct (update_latest_poop_tables val cid uid (w_db w)) as (Hc & Hs & Hw).
  split; [done|]. split; [done|].
  split.
  { intros Hnone. apply latest_walk_id_None in Hnone.
    unfold update_latest_poop. by rewrite Hnone. }
  split; [apply handle_poop_vote_raises|].
  exists (latest_walk_id cid uid (w_db w)). rewrite Hw. split.
  - intros id Hne. destruct (latest_walk_id cid uid (w_db w)) as [id0|]; [|done].
    apply lookup_alter_ne. congruence.
  - intros id Hid. rewrite Hid.
    apply latest_walk_id_Some in Hid as (row & Hrow & Hcid & Huid & Hmax).
    exists row, val. repeat split; try done.
    by rewrite lookup_alter_eq, Hrow.
Qed.

(** C10, refuted as stated: the handler acknowledges the query before it
    looks at the token; when that call raises, the handler raises, also for
    a token it does not recognise.  The store is unchanged all the same. *)
Lemma handle_poop_vote_unknown_token_answer_fails :
  (handle_poop_vote (mk_callback_query "poop_maybe" 7 42)
     (at_instant 0 never_delivers) (world_of (one_walk 0))).1
  = Raised (TelegramError AnswerCallbackQuery)
  /\ w_db (handle_poop_vote (mk_callback_query "poop_maybe" 7 42)
            (at_instant 0 never_delivers) (world_of (one_walk 0))).2
     = one_walk 0.
Proof. split; vm_compute; reflexivity. Qed.

(** C10, amended: a callback token outside the four of the poll keyboard
    makes the handler do nothing beyond acknowledging the query: the store is
    unchanged in every case, and the handler returns normally provided the
    acknowledgement [q.answer()] is delivered; when that call raises, its
    exception is what the handler raises. *)
Theorem handle_poop_vote_unknown_token (e : env) (w : world) (q : callback_query) :
  data q ∉ ["poop_ok"; "poop_soft"; "poop_diarrhea"; "poop_none"] ->
  handle_poop_vote q e w = tg AnswerCallbackQuery e w
  /\ w_db (handle_poop_vote q e w).2 = w_db w
  /\ (handle_poop_vote q e w).1 =
       (if telegram e AnswerCallbackQuery then Returned ()
        else Raised (TelegramError AnswerCallbackQuery)).
Proof.
  intros Htok. apply mapping_lookup_unknown in Htok.
  assert (E : handle_poop_vote q e w = tg AnswerCallbackQuery e w).
  { unfold handle_poop_vote. run_handler. rewrite Htok.
    by destruct (telegram e AnswerCallbackQuery). }
  rewrite E. unfold tg.
  by destruct (telegram e AnswerCallbackQuery).
Qed.

(** The token "poop_maybe" in chat 7: acknowledged, nothing stored. *)
Lemma handle_poop_vote_unknown_token_witness :
  (handle_poop_vote (mk_callback_query "poop_maybe" 7 42)
     (mk_env default_config (frozen 0) always_delivers)
     (world_of (one_walk 0))).1 = Returned ()
  /\ w_db (handle_poop_vote (mk_callback_query "poop_maybe" 7 42)
            (mk_env default_config (frozen 0) always_delivers)
            (world_of (one_walk 0))).2 = one_walk 0.
Proof.
  destruct (handle_poop_vote_unknown_token
              (mk_env default_config (frozen 0) always_delivers)
              (world_of (one_walk 0))
              (mk_callback_query "poop_maybe" 7 42)) as (_ & Hdb & Hres).
  - simpl. rewrite !not_elem_of_cons. repeat split; try discriminate.
    apply not_elem_of_nil.
  - split; [exact Hres | exact Hdb].
Defined.

(** ** One evaluation of a chat *)

(** What [maybe_alert_chat] does, in terms of the decision of the
    specification taken at the three clock readings of the evaluation: no
    action leaves the world's store and log alone; an emission attempts one
    [send_message], and stamps [last_alert_utc] with a later clock reading
    only when the call went through. *)
Lemma maybe_alert_chat_run (e : env) (w : world) (cid : Z) :
  let n := w_reads w in
  let db := w_db w in
  let r := maybe_alert_chat cid e w in
  w_chat_data r.2 = w_chat_data w
  /\ match decide_alert (cfg e) (last_walk_utc cid db) (select_last_alert cid db)
             (clock e n) (clock e (S n)) (clock e (S (S n))) with
     | NoAction => r.1 = Returned () /\ w_db r.2 = db /\ w_log r.2 = w_log w
     | Emit text =>
         w_log r.2 = w_log w ++ [SendMessage cid text]
         /\ if telegram e (SendMessage cid text)
            then r.1 = Returned ()
                 /\ w_db r.2 =
                      update_last_alert cid
                        (clock e (stamp_reading (select_last_alert cid db) n)) db
            else r.1 = Raised (TelegramError (SendMessage cid text))
                 /\ w_db r.2 = db
     end.
Proof.
  cbv zeta. unfold maybe_alert_chat, decide_alert. run_handler.
  destruct (last_walk_utc cid (w_db w)) as [last|]; simpl; [|done].
  destruct (hours_between (clock e (w_reads w)) last <? MAX_HOURS (cfg e))%float;
    simpl; [done|].
  destruct (is_quiet (cfg e) (astimezone (cfg e) (clock e (S (w_reads w)))));
    simpl; [done|].
  destruct (select_last_alert cid (w_db w)) as [la|]; simpl.
  - destruct (bool_decide (clock e (S (S (w_reads w))) - la < six_hours)); simpl;
      [done|].
    by destruct (telegram e (SendMessage cid _)).
  - by destruct (telegram e (SendMessage cid _)).
Qed.

(** An evaluation never touches the [walks] table. *)
Lemma maybe_alert_chat_walks (e : env) (w : world) (cid : Z) :
  walks (w_db (maybe_alert_chat cid e w).2) = walks (w_db w).
Proof.
  destruct (maybe_alert_chat_run e w cid) as [_ H]. cbv zeta in H.
  destruct (decide_alert _ _ _ _ _ _) as [|text].
  - destruct H as (_ & -> & _). done.
  - destruct H as [_ H]. destruct (telegram e _); destruct H as [_ ->]; done.
Qed.

(** An evaluation raises only when its [send_message] does. *)
Lemma maybe_alert_chat_raises (e : env) (w : world) (cid : Z) (x : exn) :
  (maybe_alert_chat cid e w).1 = Raised x ->
  exists text, x = TelegramError (SendMessage cid text)
    /\ telegram e (SendMessage cid text) = false
    /\ w_log (maybe_alert_chat cid e w).2 = w_log w ++ [SendMessage cid text]
    /\ w_db (maybe_alert_chat cid e w).2 = w_db w.
Proof.
  destruct (maybe_alert_chat_run e w cid) as [_ H]. cbv zeta in H.
  destruct (decide_alert _ _ _ _ _ _) as [|text].
  - destruct H as (-> & _). done.
  - destruct H as [Hlog H]. destruct (telegram e _) eqn:Ht.
    + destruct H as [-> _]. done.
    + destruct H as [-> Hdb]. intros [= <-]. eauto.
Qed.




(** At the instants of the examples of the sweep (14:00 local) the decision
    of the specification is the one [evaluate] gives. *)
Lemma spec_evaluate_at_sweep_examples :
  let now := utc 2024 1 15 13 0 0 in
  let text := "⏰ Han pasado 7.0h desde la última salida de Dora. Alguien la puede sacar?" in
  spec_evaluate default_config (w_db walked_without_start) 7 now = Emit text
  /\ spec_evaluate default_config (w_db (restart two_chats_walked)) 7 now = Emit text
  /\ spec_evaluate default_config (w_db (restart two_chats_walked)) 8 now = Emit text
  /\ spec_evaluate default_config (w_db two_chats_walked) 8 now = Emit text.
Proof. cbv zeta. repeat split; vm_compute; reflexivity. Qed.

(** ** Throttle and delivery *)

Lemma select_last_alert_update (cid : Z) (ts : Z) (db : database) :
  is_Some (chats db !! cid) ->
  select_last_alert cid (update_last_alert cid ts db) = Some ts.
Proof.
  intros [row Hrow]. unfold select_last_alert, update_last_alert; simpl.
  by rewrite lookup_alter_eq, Hrow.
Qed.

Lemma select_last_alert_is_Some (cid : Z) (db : database) (T : Z) :
  select_last_alert cid db = Some T -> is_Some (chats db !! cid).
Proof. unfold select_last_alert. by destruct (chats db !! cid). Qed.

(** The calls an evaluation attempted tell its decision. *)
Lemma maybe_alert_chat_attempted (e : env) (w : world) (cid : Z) :
  attempted w (maybe_alert_chat cid e w).2 =
    match decide_alert (cfg e) (last_walk_utc cid (w_db w))
            (select_last_alert cid (w_db w))
            (clock e (w_reads w)) (clock e (S (w_reads w)))
            (clock e (S (S (w_reads w)))) with
    | NoAction => []
    | Emit text => [SendMessage cid text]
    end.
Proof.
  destruct (maybe_alert_chat_run e w cid) as [_ H]. cbv zeta in H.
  unfold attempted.
  destruct (decide_alert _ _ _ _ _ _) as [|text].
  - destruct H as (_ & _ & ->). by rewrite drop_all.
  - destruct H as [-> _]. by rewrite drop_app_length.
Qed.

(** C5: when the chat's [last_alert_utc] is [T] and the clock reading of the
    throttle test lies in [T, T + 6h), the evaluation sends nothing and
    leaves the store (so [last_alert_utc]) as it is; from [T + 6h] on, an
    overdue chat outside quiet hours gets its message.  Hence an evaluation
    that does send has passed the test at [T + 6h] or later, and with a clock
    that does not run backwards the stamp it writes after a delivered message
    is at least six hours after the previous one. *)
Theorem throttle_six_hours (e : env) (w : world) (cid : Z) (T : Z) :
  select_last_alert cid (w_db w) = Some T ->
  let n := w_reads w in
  let r := maybe_alert_chat cid e w in
  (T ≤ clock e (S (S n)) < T + six_hours ->
     r.1 = Returned () /\ attempted w r.2 = [] /\ w_db r.2 = w_db w)
  /\ (T + six_hours ≤ clock e (S (S n)) ->
      forall last,
        last_walk_utc cid (w_db w) = Some last ->
        (hours_between (clock e n) last <? MAX_HOURS (cfg e))%float = false ->
        is_quiet (cfg e) (astimezone (cfg e) (clock e (S n))) = false ->
        attempted w r.2 = [SendMessage cid (alert_text (hours_between (clock e n) last))])
  /\ (forall text,
        attempted w r.2 = [SendMessage cid text] ->
        T + six_hours ≤ clock e (S (S n))
        /\ (telegram e (SendMessage cid text) = true ->
            select_last_alert cid (w_db r.2) = Some (clock e (S (S (S n))))
            /\ (clock e (S (S n)) ≤ clock e (S (S (S n))) ->
                T + six_hours ≤ clock e (S (S (S n)))))).
Proof.
  intros HT. cbv zeta.
  pose proof (maybe_alert_chat_run e w cid) as [_ Hrun]. cbv zeta in Hrun.
  pose proof (maybe_alert_chat_attempted e w cid) as Hatt.
  rewrite HT in Hrun, Hatt. unfold decide_alert in Hrun, Hatt.
  split; [|split].
  - intros [_ Hlt].
    assert (Hthr : bool_decide (clock e (S (S (w_reads w))) - T < six_hours) = true)
      by (apply bool_decide_eq_true; lia).
    rewrite Hthr in Hrun, Hatt.
    destruct (last_walk_utc cid (w_db w)) as [last|];
      [destruct (_ <? _)%float; [|destruct (is_quiet _ _)]|];
      destruct Hrun as (? & ? & _); by rewrite Hatt.
  - intros Hge last Hlast Hh Hq.
    rewrite Hlast, Hh, Hq in Hatt.
    by rewrite bool_decide_eq_false_2 in Hatt by lia.
  - intros text Hsent. rewrite Hatt in Hsent.
    destruct (last_walk_utc cid (w_db w)) as [last|]; [|done].
    destruct (_ <? _)%float; [done|].
    destruct (is_quiet _ _); [done|].
    destruct (bool_decide _) eqn:Hthr; [done|].
    apply bool_decide_eq_false in Hthr.
    injection Hsent as <-.
    split; [lia|]. intros Hdel. rewrite Hdel in Hrun.
    destruct Hrun as (_ & _ & ->). simpl.
    split; [|lia].
    apply select_last_alert_update. by eapply select_last_alert_is_Some.
Qed.

(** An alert at 12:00 UTC throttles the evaluation of 13:00 UTC. *)
Lemma throttle_six_hours_witness :
  let e := mk_env default_config (frozen (utc 2024 1 15 13 0 0)) always_delivers in
  let w := world_of (update_last_alert 7 (utc 2024 1 15 12 0 0)
                       (one_walk (utc 2024 1 15 6 0 0))) in
  (maybe_alert_chat 7 e w).1 = Returned ()
  /\ attempted w (maybe_alert_chat 7 e w).2 = []
  /\ w_db (maybe_alert_chat 7 e w).2 = w_db w.
Proof.
  cbv zeta.
  apply (throttle_six_hours
           (mk_env default_config (frozen (utc 2024 1 15 13 0 0)) always_delivers)
           (world_of (update_last_alert 7 (utc 2024 1 15 12 0 0)
                        (one_walk (utc 2024 1 15 6 0 0))))
           7 (utc 2024 1 15 12 0 0)).
  - vm_compute. reflexivity.
  - vm_compute. split; [discriminate | reflexivity].
Defined.

(** C6: when an evaluation decides to send (it attempts a [send_message])
    and the call raises, the exception leaves [maybe_alert_chat] before the
    UPDATE: the store is as before, so the next tick decides again.  When the
    call goes through, [last_alert_utc] is set to the clock reading taken
    after it. *)
Theorem delivery_failure_keeps_last_alert (e : env) (w : world) (cid : Z) (text : string) :
  attempted w (maybe_alert_chat cid e w).2 = [SendMessage cid text] ->
  let r := maybe_alert_chat cid e w in
  let stamp := clock e (stamp_reading (select_last_alert cid (w_db w)) (w_reads w)) in
  (telegram e (SendMessage cid text) = false ->
     r.1 = Raised (TelegramError (SendMessage cid text)) /\ w_db r.2 = w_db w)
  /\ (telegram e (SendMessage cid text) = true ->
      r.1 = Returned ()
      /\ w_db r.2 = update_last_alert cid stamp (w_db w)
      /\ (is_Some (chats (w_db w) !! cid) ->
          select_last_alert cid (w_db r.2) = Some stamp)).
Proof.
  intros Hsent. cbv zeta.
  pose proof (maybe_alert_chat_run e w cid) as [_ Hrun]. cbv zeta in Hrun.
  rewrite maybe_alert_chat_attempted in Hsent.
  destruct (decide_alert _ _ _ _ _ _) as [|text']; [done|].
  injection Hsent as ->. destruct Hrun as [_ Hrun].
  split; intros Hdel; rewrite Hdel in Hrun; destruct Hrun as [-> ->]; [done|].
  repeat split. apply select_last_alert_update.
Qed.

(** A walk 7 hours old and a transport that is down: the message is
    attempted, the exception surfaces, the store is as before. *)
Lemma delivery_failure_keeps_last_alert_witness :
  let e := at_instant (utc 2024 1 15 13 0 0) never_delivers in
  let w := world_of (one_walk (utc 2024 1 15 6 0 0)) in
  (maybe_alert_chat 7 e w).1
    = Raised (TelegramError (SendMessage 7
        "⏰ Han pasado 7.0h desde la última salida de Dora. Alguien la puede sacar?"))
  /\ w_db (maybe_alert_chat 7 e w).2 = w_db w.
Proof.
  cbv zeta.
  destruct (delivery_failure_keeps_last_alert
              (at_instant (utc 2024 1 15 13 0 0) never_delivers)
              (world_of (one_walk (utc 2024 1 15 6 0 0))) 7
              "⏰ Han pasado 7.0h desde la última salida de Dora. Alguien la puede sacar?")
    as [Hfail _].
  - vm_compute. reflexivity.
  - apply Hfail. reflexivity.
Defined.

(** ** The periodic sweep *)

(** A loop over [l1 ++ l2] runs [l2] from the world [l1] left, unless an
    iteration of [l1] raised. *)
Lemma for_each_app {A} (l1 l2 : list A) (body : A -> M unit) (e : env) (w : world) :
  for_each (l1 ++ l2) body e w =
    match for_each l1 body e w with
    | (Returned _, w1) => for_each l2 body e w1
    | (Raised x, w1) => (Raised x, w1)
    end.
Proof.
  revert w. induction l1 as [|a l1 IH]; intros w; simpl; [done|].
  unfold mbind, M_bind. destruct (body a e w) as [[[]|x] w1]; [apply IH|done].
Qed.

(** An iteration that raises ends the loop with its exception and world. *)
Lemma for_each_raise {A} (c : A) (post : list A) (body : A -> M unit)
    (e : env) (w w' : world) (x : exn) :
  body c e w = (Raised x, w') -> for_each (c :: post) body e w = (Raised x, w').
Proof. intros E. simpl. unfold mbind, M_bind. by rewrite E. Qed.

(** The sweep never touches the [walks] table. *)
Lemma for_each_maybe_alert_chat_walks (l : list Z) (e : env) (w : world) :
  walks (w_db (for_each l maybe_alert_chat e w).2) = walks (w_db w).
Proof.
  revert w. induction l as [|c l IH]; intros w; simpl; [done|].
  unfold mbind, M_bind.
  pose proof (maybe_alert_chat_walks e w c) as Hc.
  destruct (maybe_alert_chat c e w) as [[[]|x] w1]; simpl in *; [|done].
  by rewrite IH.
Qed.

(** C3, evaluated where the code departs from it: chat 7 has a row in
    [chats] and a walk 7 hours old, it is 14:00 local and no alert was ever
    sent, so the decision of the specification is to emit; but the chat never
    sent /start, [application.chat_data] has no key for it, and the sweep
    evaluates nothing.  The same happens to chats that did send /start once
    the process has been restarted. *)
Lemma overdue_check_skips_unregistered_chat :
  let w := walked_without_start in
  let now := utc 2024 1 15 13 0 0 in
  let text := "⏰ Han pasado 7.0h desde la última salida de Dora. Alguien la puede sacar?" in
  (is_Some (chats (w_db w) !! 7)
   /\ last_walk_utc 7 (w_db w) = Some (utc 2024 1 15 6 0 0)
   /\ evaluate default_config (w_db w) 7 now = Emit text
   /\ (w_chat_data w).*1 = []
   /\ overdue_check (at_instant now always_delivers) w = (Returned (), w))
  /\ (evaluate default_config (w_db (restart two_chats_walked)) 7 now = Emit text
      /\ evaluate default_config (w_db (restart two_chats_walked)) 8 now = Emit text
      /\ overdue_check (at_instant now always_delivers) (restart two_chats_walked)
         = (Returned (), restart two_chats_walked)).
Proof. cbv zeta. repeat split; try (vm_compute; reflexivity). by eexists. Qed.

(** C4, refuted as stated: chats 7 and 8 are both registered and overdue;
    the message to chat 7 cannot be delivered.  The sweep ends with that
    exception after its single attempt, although chat 8 comes next, its own
    evaluation would return normally, and the decision for it is to emit. *)
Lemma overdue_check_aborts_on_failure :
  let w := two_chats_walked in
  let now := utc 2024 1 15 13 0 0 in
  let e := at_instant now (delivers_except 7) in
  let text := "⏰ Han pasado 7.0h desde la última salida de Dora. Alguien la puede sacar?" in
  (w_chat_data w).*1 = [7; 8]
  /\ (overdue_check e w).1 = Raised (TelegramError (SendMessage 7 text))
  /\ attempted w (overdue_check e w).2 = [SendMessage 7 text]
  /\ evaluate default_config (w_db w) 8 now = Emit text
  /\ (maybe_alert_chat 8 e w).1 = Returned ()
  /\ attempted w (maybe_alert_chat 8 e w).2 = [SendMessage 8 text].
Proof. cbv zeta. repeat split; vm_compute; reflexivity. Qed.

(** C4, amended: the sweep evaluates the registered chats in the order of
    [application.chat_data] and catches nothing.  When the chats before [c]
    were evaluated without an exception and the evaluation of [c] raises, the
    sweep ends there with that exception: the world is the one [c] left, the
    chats after [c] are not evaluated in this tick, and the exception is the
    failed [send_message] to [c], whose alert bookkeeping is unchanged. *)
Theorem overdue_check_stops_at_first_failure
    (e : env) (w w1 w2 : world) (pre post : list Z) (c : Z) (x : exn) :
  (w_chat_data w).*1 = pre ++ c :: post ->
  for_each pre maybe_alert_chat e w = (Returned (), w1) ->
  maybe_alert_chat c e w1 = (Raised x, w2) ->
  overdue_check e w = (Raised x, w2)
  /\ exists text,
       x = TelegramError (SendMessage c text)
       /\ telegram e (SendMessage c text) = false
       /\ w_log w2 = w_log w1 ++ [SendMessage c text]
       /\ w_db w2 = w_db w1.
Proof.
  intros Hkeys Hpre Hc. split.
  - unfold overdue_check. run_handler.
    rewrite Hkeys, for_each_app, Hpre. by apply for_each_raise.
  - pose proof (maybe_alert_chat_raises e w1 c x) as H.
    rewrite Hc in H. simpl in H. by apply H.
Qed.

(** Chats 7 and 8 overdue, delivery to 8 failing: chat 7 is evaluated, the
    sweep ends with the failure for chat 8. *)
Lemma overdue_check_stops_at_first_failure_witness :
  let e := at_instant (utc 2024 1 15 13 0 0) (delivers_except 8) in
  overdue_check e two_chats_walked
  = (Raised (TelegramError (SendMessage 8
       "⏰ Han pasado 7.0h desde la última salida de Dora. Alguien la puede sacar?")),
     (maybe_alert_chat 8 e (maybe_alert_chat 7 e two_chats_walked).2).2).
Proof.
  cbv zeta.
  apply (overdue_check_stops_at_first_failure
           (at_instant (utc 2024 1 15 13 0 0) (delivers_except 8))
           two_chats_walked
           (maybe_alert_chat 7 (at_instant (utc 2024 1 15 13 0 0) (delivers_except 8))
              two_chats_walked).2
           _ [7] [] 8).
  - vm_compute. reflexivity.
  - vm_compute. reflexivity.
  - vm_compute. reflexivity.
Defined.

(** ** Events are kept *)

Lemma max_rowid_ge (m : gmap Z walk) (id : Z) :
  is_Some (m !! id) -> id ≤ max_rowid m.
Proof.
  unfold max_rowid. revert id.
  apply (map_fold_weak_ind (fun r m => forall id, is_Some (m !! id) -> id ≤ r)).
  - intros id. rewrite lookup_empty. by intros [? ?].
  - intros i x m' r _ IH id. rewrite lookup_insert_is_Some'.
    intros [->|Hid]; [lia|]. specialize (IH id Hid). lia.
Qed.

(** AUTOINCREMENT hands out an unused rowid. *)
Lemma next_rowid_fresh (db : database) : walks db !! next_rowid db = None.
Proof.
  destruct (walks db !! next_rowid db) as [row|] eqn:E; [|done].
  assert (next_rowid db ≤ max_rowid (walks db)) by (by apply max_rowid_ge).
  unfold next_rowid in *. lia.
Qed.

Lemma insert_or_ignore_chat_walks (cid : Z) (t : option string) (db : database) :
  walks (insert_or_ignore_chat cid t db) = walks db.
Proof. unfold insert_or_ignore_chat. by destruct (chats db !! cid). Qed.

(** The INSERT of a walk leaves every existing row in place. *)
Lemma insert_walk_keeps (cid uid : Z) (name : string) (ts : Z) (db : database)
    (id : Z) (row : walk) :
  walks db !! id = Some row ->
  walks (insert_walk cid uid name ts db) !! id = Some row.
Proof.
  intros Hrow. unfold insert_walk; simpl.
  rewrite lookup_insert_ne; [done|].
  intros <-. by rewrite next_rowid_fresh in Hrow.
Qed.

Lemma start_walks (u : update) (e : env) (w : world) :
  walks (w_db (start u e w).2) = walks (w_db w).
Proof.
  unfold start. run_handler.
  destruct (telegram e _); simpl; apply insert_or_ignore_chat_walks.
Qed.

Lemma log_walk_keeps (u : update) (e : env) (w : world) (id : Z) (row : walk) :
  walks (w_db w) !! id = Some row ->
  walks (w_db (log_walk u e w).2) !! id = Some row.
Proof.
  intros Hrow. unfold log_walk, send_poop_poll. run_handler.
  assert (walks (insert_walk (effective_chat_id u) (effective_user_id u)
                   (effective_user_full_name u) (clock e (w_reads w))
                   (insert_or_ignore_chat (effective_chat_id u)
                      (effective_chat_title u) (w_db w))) !! id = Some row) as H.
  { apply insert_walk_keeps. by rewrite insert_or_ignore_chat_walks. }
  destruct (telegram e (ReplyText _ (_ +:+ _) _)); simpl; [|done].
  by destruct (telegram e _).
Qed.

(** C9, refuted as stated: user 42 reports two walks in chat 7 and gets a
    poll for each.  Answering the second poll sets the outcome of walk 2 to
    "Normal"; answering the first poll afterwards does not reach walk 1 but
    replaces the outcome of walk 2 by "Blanda". *)
Lemma second_vote_overwrites_outcome :
  let e := mk_env default_config (ticking (utc 2024 1 15 6 0 0)) always_delivers in
  let w0 := handle_all [Walk (update_in 7); Walk (update_in 7)] e init_world in
  let w1 := (handle (Vote (mk_callback_query "poop_ok" 7 42)) e w0).2 in
  let w2 := (handle (Vote (mk_callback_query "poop_soft" 7 42)) e w1).2 in
  (ts_utc <$> walks (w_db w0) !! 1 = Some (utc 2024 1 15 6 0 0)
   /\ ts_utc <$> walks (w_db w0) !! 2 = Some (utc 2024 1 15 7 0 0))
  /\ poop <$> walks (w_db w0) !! 2 = Some None
  /\ poop <$> walks (w_db w1) !! 2 = Some (Some "Normal")
  /\ poop <$> walks (w_db w2) !! 2 = Some (Some "Blanda")
  /\ poop <$> walks (w_db w2) !! 1 = Some None.
Proof. cbv zeta. repeat split; vm_compute; reflexivity. Qed.

(** C9, amended: no request deletes a walk or changes its chat, user, name
    or timestamp.  A walk's outcome changes only through a vote with a
    recognised token cast by the walk's own user in its chat while no other
    walk of that pair is later; such a vote writes the outcome whether or not
    one was already set. *)
Theorem handle_keeps_walks (r : request) (e : env) (w : world) (id : Z) (row : walk) :
  walks (w_db w) !! id = Some row ->
  walks (w_db (handle r e w).2) !! id = Some row
  \/ exists q val,
       r = Vote q
       /\ mapping !! data q = Some val
       /\ chat_id row = message_chat_id q
       /\ user_id row = from_user_id q
       /\ (forall id' row', walks (w_db w) !! id' = Some row' ->
             chat_id row' = chat_id row -> user_id row' = user_id row ->
             ts_utc row' ≤ ts_utc row)
       /\ walks (w_db (handle r e w).2) !! id = Some (set_poop (Some val) row).
Proof.
  intros Hrow. destruct r as [u|u|q|]; simpl.
  - left. by rewrite start_walks.
  - left. by apply log_walk_keeps.
  - rewrite handle_poop_vote_db.
    destruct (mapping !! data q) as [val|] eqn:Hval; [|by left].
    destruct (telegram e AnswerCallbackQuery); [|by left].
    destruct (update_latest_poop_tables val (message_chat_id q) (from_user_id q)
                (w_db w)) as (_ & _ & ->).
    destruct (latest_walk_id _ _ _) as [id0|] eqn:Hsel; [|by left].
    destruct (decide (id0 = id)) as [->|Hne]; [|left; by rewrite lookup_alter_ne].
    right. apply latest_walk_id_Some in Hsel as (row0 & Hrow0 & Hc & Hu & Hmax).
    assert (row0 = row) as -> by congruence.
    exists q, val. repeat split; try done.
    + intros id' row' Hrow' Hc' Hu'. apply (Hmax id' row' Hrow'); congruence.
    + by rewrite lookup_alter_eq, Hrow.
  - left. unfold overdue_check. run_handler.
    by rewrite for_each_maybe_alert_chat_walks.
Qed.

(** A second walk in chat 7 leaves the first one as it was. *)
Lemma handle_keeps_walks_witness :
  let e := at_instant (utc 2024 1 15 6 5 0) always_delivers in
  let w := world_of (one_walk (utc 2024 1 15 6 0 0)) in
  walks (w_db (handle (Walk (update_in 7)) e w).2) !! 1
  = Some (mk_walk 7 42 "Ana" (utc 2024 1 15 6 0 0) None).
Proof.
  cbv zeta.
  destruct (handle_keeps_walks (Walk (update_in 7))
              (at_instant (utc 2024 1 15 6 5 0) always_delivers)
              (world_of (one_walk (utc 2024 1 15 6 0 0)))
              1 (mk_walk 7 42 "Ana" (utc 2024 1 15 6 0 0) None))
    as [H|(q & val & Hq & _)].
  - vm_compute. reflexivity.
  - exact H.
  - discriminate Hq.
Defined.

(** ** Statistics *)

Lemma gaps_of_cons (a b : Z) (l : list Z) :
  gaps_of (a :: b :: l) = hours_between b a :: gaps_of (b :: l).
Proof.
  unfold gaps_of. simpl length.
  replace (S (S (length l)) - 1)%nat with (S (length l)) by lia.
  replace (S (length l) - 1)%nat with (length l) by lia.
  simpl seq. rewrite fmap_cons. f_equal.
  rewrite <- fmap_S_seq, <- list_fmap_compose.
  apply list_fmap_ext. intros i k Hk. apply lookup_seq in Hk as [-> _]. simpl.
  by rewrite Nat.sub_0_r.
Qed.

(** The index loop of [chat_stats] computes the differences of consecutive
    timestamps. *)
Lemma gaps_of_consecutive (times : list Z) :
  gaps_of times = consecutive_differences times.
Proof.
  induction times as [|a [|b l] IH]; [done|done|].
  rewrite gaps_of_cons, IH. done.
Qed.

Lemma count_poop_lookup (m : gmap string nat) (r : walk) (k : string) :
  default 0%nat (count_poop m r !! k) =
    (default 0 (m !! k) + if decide (poop_or_unknown (poop r) = k) then 1 else 0)%nat.
Proof.
  unfold count_poop. rewrite lookup_insert.
  destruct (decide (poop_or_unknown (poop r) = k)) as [->|]; simpl; lia.
Qed.

Lemma count_poop_total (m : gmap string nat) (r : walk) :
  tally_total (count_poop m r) = S (tally_total m).
Proof.
  unfold count_poop, tally_total.
  set (k := poop_or_unknown (poop r)).
  assert (Hcomm : forall (j1 j2 : string) (z1 z2 y : nat),
             (z1 + (z2 + y) = z2 + (z1 + y))%nat) by (intros; lia).
  destruct (m !! k) as [v|] eqn:E; simpl.
  - rewrite <- (insert_delete_eq m).
    rewrite map_fold_insert_L; [|by intros; apply Hcomm|by rewrite lookup_delete_eq].
    rewrite <- (insert_delete_id m k v) at 2 by done.
    rewrite (map_fold_insert_L _ _ k v);
      [|by intros; apply Hcomm|by rewrite lookup_delete_eq].
    lia.
  - rewrite map_fold_insert_L; [lia|by intros; apply Hcomm|done].
Qed.

Lemma tally_lookup (rows : list walk) (m : gmap string nat) (k : string) :
  default 0%nat (foldl count_poop m rows !! k)
  = (default 0 (m !! k) + events_in_category k rows)%nat.
Proof.
  revert m. induction rows as [|r rows IH]; intros m; simpl.
  - unfold events_in_category. simpl. lia.
  - rewrite IH, count_poop_lookup. unfold events_in_category.
    rewrite filter_cons. destruct (decide _); simpl; lia.
Qed.

Lemma tally_total_foldl (rows : list walk) (m : gmap string nat) :
  tally_total (foldl count_poop m rows) = (tally_total m + length rows)%nat.
Proof.
  revert m. induction rows as [|r rows IH]; intros m; simpl; [lia|].
  rewrite IH, count_poop_total. lia.
Qed.

(** The outcomes a vote can store are neither empty nor "unknown". *)
Lemma mapping_values_known (tok val : string) :
  mapping !! tok = Some val -> poop_or_unknown (Some val) = val /\ val ≠ "unknown".
Proof.
  unfold mapping; simpl. intros E.
  repeat (apply lookup_insert_Some in E as [[_ <-]|[_ E]]; [done|]).
  by rewrite lookup_empty in E.
Qed.

(** With outcomes that come from votes, "unknown" collects exactly the walks
    without outcome. *)
Lemma unknown_counts_unset (rows : list walk) :
  Forall (fun r => forall s, poop r = Some s -> exists tok, mapping !! tok = Some s) rows ->
  events_in_category "unknown" rows = length (filter (fun r => poop r = None) rows).
Proof.
  unfold events_in_category.
  induction 1 as [|r rows Hr _ IH]; [done|].
  rewrite !filter_cons.
  destruct (poop r) as [s|] eqn:Hp.
  - destruct (Hr s eq_refl) as [tok Htok].
    apply mapping_values_known in Htok as [-> Hne].
    repeat case_decide; simplify_eq/=; done.
  - repeat case_decide; simplify_eq/=. by rewrite IH.
Qed.

(** C7: on every sequence of rows the statistics are: the number of rows;
    the first and last timestamp; the mean of the differences of consecutive
    timestamps in hours, which is 0.0 below two rows; and a tally that maps
    each category to the number of rows in it, rows without outcome going to
    "unknown", whose values add up to the number of rows.  On no rows the
    result is [(0, None, None, 0.0, {})]; on walks at hours 0, 2 and 5 the
    count is 3 and the mean gap 2.5.  For a chat, the count is the number of
    its rows in [walks]. *)
Theorem stats_of_rows_correct (rows : list walk) :
  stats_of_rows rows
  = (length rows, head (ts_utc <$> rows), last (ts_utc <$> rows),
     spec_average_gap_hours rows, foldl count_poop ∅ rows)
  /\ ((length rows < 2)%nat -> spec_average_gap_hours rows = 0%float)
  /\ (forall k : string,
        default 0%nat (foldl count_poop ∅ rows !! k) = events_in_category k rows)
  /\ (Forall (fun r => forall s, poop r = Some s -> exists tok, mapping !! tok = Some s) rows ->
      default 0%nat (foldl count_poop ∅ rows !! "unknown")
      = length (filter (fun r => poop r = None) rows))
  /\ tally_total (foldl count_poop ∅ rows) = length rows
  /\ stats_of_rows [] = (0%nat, None, None, 0%float, ∅)
  /\ ((stats_of_rows (walks_at_hours [0; 2; 5])).1.1.1.1 = 3%nat
      /\ (stats_of_rows (walks_at_hours [0; 2; 5])).1.2 = 2.5%float)
  /\ (forall (cid : Z) (db : database),
        (chat_stats cid db).1.1.1.1 = length (walks_of_chat cid db)).
Proof.
  assert (Heq : forall l, stats_of_rows l
    = (length l, head (ts_utc <$> l), last (ts_utc <$> l),
       spec_average_gap_hours l, foldl count_poop ∅ l)).
  { intros [|r1 l]; [done|].
    unfold stats_of_rows, spec_average_gap_hours. rewrite gaps_of_consecutive.
    destruct l as [|r2 l]; done. }
  split; [apply Heq|].
  split.
  { unfold spec_average_gap_hours. intros Hlt.
    apply Nat.ltb_lt in Hlt. by rewrite Hlt. }
  split.
  { intros k. rewrite tally_lookup, lookup_empty. done. }
  split.
  { intros Hrows. rewrite tally_lookup, lookup_empty. simpl.
    by apply unknown_counts_unset. }
  split.
  { rewrite tally_total_foldl. unfold tally_total. by rewrite map_fold_empty. }
  split; [done|].
  split; [split; vm_compute; reflexivity|].
  intros cid db. unfold chat_stats. rewrite Heq. simpl.
  rewrite length_fmap. apply Permutation_length, merge_sort_Permutation.
Qed.

(** ** Every walk has its chat record *)

Lemma insert_or_ignore_chat_keeps (cid c : Z) (t : option string) (db : database) :
  is_Some (chats db !! c) -> is_Some (chats (insert_or_ignore_chat cid t db) !! c).
Proof.
  unfold insert_or_ignore_chat. destruct (chats db !! cid) eqn:E; [done|]. simpl.
  rewrite lookup_insert_is_Some'. auto.
Qed.

Lemma insert_or_ignore_chat_present (cid : Z) (t : option string) (db : database) :
  is_Some (chats (insert_or_ignore_chat cid t db) !! cid).
Proof.
  unfold insert_or_ignore_chat. destruct (chats db !! cid) eqn:E; [by rewrite E|].
  simpl. rewrite lookup_insert_is_Some'. auto.
Qed.

Lemma update_last_alert_keeps (cid c : Z) (ts : Z) (db : database) :
  is_Some (chats db !! c) -> is_Some (chats (update_last_alert cid ts db) !! c).
Proof.
  unfold update_last_alert; simpl. rewrite lookup_alter.
  case_decide; [subst|done]. by rewrite fmap_is_Some.
Qed.

Lemma maybe_alert_chat_keeps_chats (e : env) (w : world) (cid c : Z) :
  is_Some (chats (w_db w) !! c) ->
  is_Some (chats (w_db (maybe_alert_chat cid e w).2) !! c).
Proof.
  intros Hc. destruct (maybe_alert_chat_run e w cid) as [_ H]. cbv zeta in H.
  destruct (decide_alert _ _ _ _ _ _) as [|text].
  - destruct H as (_ & -> & _). done.
  - destruct H as [_ H]. destruct (telegram e _); destruct H as [_ ->]; [|done].
    by apply update_last_alert_keeps.
Qed.

Lemma for_each_maybe_alert_chat_keeps_chats (l : list Z) (e : env) (w : world) (c : Z) :
  is_Some (chats (w_db w) !! c) ->
  is_Some (chats (w_db (for_each l maybe_alert_chat e w).2) !! c).
Proof.
  revert w. induction l as [|cid l IH]; intros w Hc; simpl; [done|].
  unfold mbind, M_bind.
  pose proof (maybe_alert_chat_keeps_chats e w cid c Hc) as H1.
  destruct (maybe_alert_chat cid e w) as [[[]|x] w1]; simpl in *; [|done].
  by apply IH.
Qed.

Lemma walks_have_chat_init : walks_have_chat init_db.
Proof. intros id row. simpl. by rewrite lookup_empty. Qed.

(** Every handler keeps the invariant: [log_walk] inserts the chat row in the
    transaction of the walk, and nothing removes a chat row. *)
Lemma handle_walks_have_chat (r : request) (e : env) (w : world) :
  walks_have_chat (w_db w) -> walks_have_chat (w_db (handle r e w).2).
Proof.
  intros Hinv id row. destruct r as [u|u|q|]; simpl.
  - rewrite start_walks. intros Hrow. unfold start. run_handler.
    destruct (telegram e _); simpl; apply insert_or_ignore_chat_keeps; eauto.
  - unfold log_walk, send_poop_poll. run_handler.
    set (db1 := insert_or_ignore_chat (effective_chat_id u) (effective_chat_title u)
                  (w_db w)).
    assert (H : walks (insert_walk (effective_chat_id u) (effective_user_id u)
                         (effective_user_full_name u) (clock e (w_reads w)) db1)
                  !! id = Some row ->
                is_Some (chats db1 !! chat_id row)).
    { unfold insert_walk; simpl. rewrite lookup_insert_Some.
      intros [[_ <-]|[_ Hrow]]; simpl.
      - apply insert_or_ignore_chat_present.
      - apply insert_or_ignore_chat_keeps.
        unfold db1 in Hrow. rewrite insert_or_ignore_chat_walks in Hrow. eauto. }
    destruct (telegram e (ReplyText _ (_ +:+ _) _)); simpl; [|done].
    by destruct (telegram e _).
  - rewrite handle_poop_vote_db.
    destruct (mapping !! data q) as [val|]; [|apply Hinv].
    destruct (telegram e AnswerCallbackQuery); [|apply Hinv].
    destruct (update_latest_poop_tables val (message_chat_id q) (from_user_id q)
                (w_db w)) as (-> & _ & ->).
    destruct (latest_walk_id _ _ _) as [id0|]; [|apply Hinv].
    rewrite lookup_alter. case_decide; [subst|apply Hinv].
    destruct (walks (w_db w) !! id) as [row0|] eqn:Hrow0; simpl; [|done].
    intros [= <-]. simpl. eauto.
  - unfold overdue_check. run_handler.
    rewrite for_each_maybe_alert_chat_walks. intros Hrow.
    apply for_each_maybe_alert_chat_keeps_chats. eauto.
Qed.

(** Under the invariant a chat that is evaluated beyond step 1 has its row,
    so the stamp of a delivered alert is stored. *)
Lemma last_walk_chat_has_record (cid : Z) (db : database) (t : Z) :
  walks_have_chat db -> last_walk_utc cid db = Some t -> is_Some (chats db !! cid).
Proof.
  intros Hinv Hlast.
  apply last_walk_utc_Some in Hlast as [(id & row & Hrow & <- & _) _]. eauto.
Qed.

(** In a store that satisfies the invariant, a delivered alert is always
    followed by its stamp in [last_alert_utc], which the next evaluations
    read for the throttle. *)
Lemma delivered_alert_is_stamped (e : env) (w : world) (cid : Z) (text : string) :
  walks_have_chat (w_db w) ->
  attempted w (maybe_alert_chat cid e w).2 = [SendMessage cid text] ->
  telegram e (SendMessage cid text) = true ->
  select_last_alert cid (w_db (maybe_alert_chat cid e w).2)
  = Some (clock e (stamp_reading (select_last_alert cid (w_db w)) (w_reads w))).
Proof.
  intros Hinv Hsent Hdel.
  pose proof (maybe_alert_chat_run e w cid) as [_ Hrun]. cbv zeta in Hrun.
  rewrite maybe_alert_chat_attempted in Hsent.
  destruct (decide_alert _ _ _ _ _ _) as [|text'] eqn:Hdec; [done|].
  injection Hsent as ->. destruct Hrun as [_ Hrun].
  rewrite Hdel in Hrun. destruct Hrun as [_ ->].
  apply select_last_alert_update.
  unfold decide_alert in Hdec.
  destruct (last_walk_utc cid (w_db w)) as [last|] eqn:Hlast; [|done].
  by eapply last_walk_chat_has_record.
Qed.

(** * Further properties of the program *)

(** ** The latest walk of a chat *)

(** X1: [last_walk_utc] returns nothing exactly when the chat has no walk,
    and otherwise the timestamp of one of the chat's walks that no walk of
    the chat exceeds. *)
Theorem last_walk_utc_is_latest (cid : Z) (db : database) :
  match last_walk_utc cid db with
  | None => forall id row, walks db !! id = Some row -> chat_id row ≠ cid
  | Some t =>
      (exists id row, walks db !! id = Some row /\ chat_id row = cid /\ ts_utc row = t)
      /\ forall id row, walks db !! id = Some row -> chat_id row = cid -> ts_utc row ≤ t
  end.
Proof.
  destruct (last_walk_utc cid db) as [t|] eqn:E.
  - by apply last_walk_utc_Some.
  - apply last_walk_utc_None in E. intros id row Hrow Hc.
    assert ((id, row) ∈ walks_of_chat cid db) as Hin
      by (by apply elem_of_walks_of_chat).
    rewrite E in Hin. by apply elem_of_nil in Hin.
Qed.

(** The two facts above determine the result. *)
Lemma last_walk_utc_unique (cid : Z) (db : database) (t : Z) :
  (exists id row, walks db !! id = Some row /\ chat_id row = cid /\ ts_utc row = t) ->
  (forall id row, walks db !! id = Some row -> chat_id row = cid -> ts_utc row ≤ t) ->
  last_walk_utc cid db = Some t.
Proof.
  intros (id & row & Hrow & Hc & Ht) Hmax.
  destruct (last_walk_utc cid db) as [t'|] eqn:E.
  - apply last_walk_utc_Some in E as [(id' & row' & Hrow' & Hc' & Ht') Hmax'].
    f_equal. specialize (Hmax id' row' Hrow' Hc'). specialize (Hmax' id row Hrow Hc).
    lia.
  - apply last_walk_utc_None in E.
    assert ((id, row) ∈ walks_of_chat cid db) as Hin
      by (by apply elem_of_walks_of_chat).
    rewrite E in Hin. by apply elem_of_nil in Hin.
Qed.

Lemma last_walk_utc_none_iff (cid : Z) (db : database) :
  last_walk_utc cid db = None
  <-> forall id row, walks db !! id = Some row -> chat_id row ≠ cid.
Proof.
  split.
  - intros E. pose proof (last_walk_utc_None cid db) as Hnone.
    apply Hnone in E. intros id row Hrow Hc.
    assert ((id, row) ∈ walks_of_chat cid db) as Hin
      by (by apply elem_of_walks_of_chat).
    rewrite E in Hin. by apply elem_of_nil in Hin.
  - intros Hno. destruct (last_walk_utc cid db) as [t|] eqn:E; [|done].
    apply last_walk_utc_Some in E as [(id & row & Hrow & Hc & _) _].
    by destruct (Hno id row Hrow).
Qed.

(** ** Reporting a walk *)

(** The store after [log_walk] does not depend on the replies. *)
Lemma log_walk_db (u : update) (e : env) (w : world) :
  w_db (log_walk u e w).2 =
    insert_walk (effective_chat_id u) (effective_user_id u)
      (effective_user_full_name u) (clock e (w_reads w))
      (insert_or_ignore_chat (effective_chat_id u) (effective_chat_title u) (w_db w)).
Proof.
  unfold log_walk, send_poop_poll. run_handler.
  destruct (telegram e (ReplyText _ (_ +:+ _) _)); simpl; [|done].
  by destruct (telegram e _).
Qed.

Lemma log_walk_chat_data (u : update) (e : env) (w : world) :
  w_chat_data (log_walk u e w).2 = w_chat_data w.
Proof.
  unfold log_walk, send_poop_poll. run_handler.
  destruct (telegram e (ReplyText _ (_ +:+ _) _)); simpl; [|done].
  by destruct (telegram e _).
Qed.

Lemma insert_or_ignore_chat_next_rowid (cid : Z) (t : option string) (db : database) :
  next_rowid (insert_or_ignore_chat cid t db) = next_rowid db.
Proof. unfold insert_or_ignore_chat. by destruct (chats db !! cid). Qed.

(** The rows of [walks] after [log_walk]: the old ones and the new one. *)
Lemma log_walk_rows (u : update) (e : env) (w : world) (id : Z) (row : walk) :
  walks (w_db (log_walk u e w).2) !! id = Some row
  <-> (id = next_rowid (w_db w)
       /\ row = mk_walk (effective_chat_id u) (effective_user_id u)
                  (effective_user_full_name u) (clock e (w_reads w)) None)
      \/ walks (w_db w) !! id = Some row.
Proof.
  rewrite log_walk_db. unfold insert_walk; simpl.
  rewrite insert_or_ignore_chat_next_rowid, insert_or_ignore_chat_walks.
  rewrite lookup_insert_Some. split.
  - intros [[<- <-]|[_ H]]; auto.
  - intros [[-> ->]|H]; [by left|]. right. split; [|done].
    intros <-. by rewrite next_rowid_fresh in H.
Qed.

(** X2: right after [log_walk] the latest walk of the chat is the later of
    the previous latest walk and the new one, whatever happens to the two
    replies; the latest walk of every other chat is as before. *)
Theorem log_walk_last_walk_utc (u : update) (e : env) (w : world) :
  let cid := effective_chat_id u in
  let now := clock e (w_reads w) in
  last_walk_utc cid (w_db (log_walk u e w).2)
  = Some (match last_walk_utc cid (w_db w) with
          | Some previous => Z.max previous now
          | None => now
          end)
  /\ forall c, c ≠ cid ->
       last_walk_utc c (w_db (log_walk u e w).2) = last_walk_utc c (w_db w).
Proof.
  cbv zeta. split.
  - destruct (last_walk_utc (effective_chat_id u) (w_db w)) as [p|] eqn:E.
    + apply last_walk_utc_Some in E as [(id & row & Hrow & Hc & Ht) Hmax].
      apply last_walk_utc_unique.
      * destruct (Z.max_spec p (clock e (w_reads w))) as [[_ ->]|[_ ->]].
        -- exists (next_rowid (w_db w)), (mk_walk (effective_chat_id u)
             (effective_user_id u) (effective_user_full_name u)
             (clock e (w_reads w)) None).
           split; [apply log_walk_rows; by left|done].
        -- exists id, row. split; [apply log_walk_rows; by right|done].
      * intros id' row' Hrow' Hc'. apply log_walk_rows in Hrow' as [[_ ->]|Hrow'].
        -- simpl. lia.
        -- specialize (Hmax id' row' Hrow' Hc'). lia.
    + apply last_walk_utc_unique.
      * exists (next_rowid (w_db w)), (mk_walk (effective_chat_id u)
          (effective_user_id u) (effective_user_full_name u)
          (clock e (w_reads w)) None).
        split; [apply log_walk_rows; by left|done].
      * intros id' row' Hrow' Hc'. apply log_walk_rows in Hrow' as [[_ ->]|Hrow'].
        -- simpl. lia.
        -- by destruct (proj1 (last_walk_utc_none_iff _ _) E id' row' Hrow').
  - intros c Hne.
    destruct (last_walk_utc c (w_db w)) as [t|] eqn:E.
    + apply last_walk_utc_Some in E as [(id & row & Hrow & Hc & Ht) Hmax].
      apply last_walk_utc_unique.
      * exists id, row. split; [apply log_walk_rows; by right|done].
      * intros id' row' Hrow' Hc'. apply log_walk_rows in Hrow' as [[_ ->]|Hrow'].
        -- simpl in Hc'. congruence.
        -- by apply (Hmax id' row').
    + apply last_walk_utc_none_iff. intros id' row' Hrow'.
      apply log_walk_rows in Hrow' as [[_ ->]|Hrow']; simpl; [congruence|].
      by apply (proj1 (last_walk_utc_none_iff _ _) E id' row').
Qed.

(** X3: [log_walk] commits the walk before it replies, so the store after it
    is the same whether the replies are delivered or raise: one new row with
    no outcome, under an id that exceeds every id in use and the counter;
    every row of [chats] that existed is untouched (title and
    [last_alert_utc] included), the chat of the walk has a row, and
    [application.chat_data] is not touched. *)
Theorem log_walk_stores_walk (u : update) (e : env) (w : world) :
  let db := w_db w in
  let db' := w_db (log_walk u e w).2 in
  let id := next_rowid db in
  (forall id', is_Some (walks db !! id') -> id' < id)
  /\ walks_seq db < id
  /\ walks db' = <[id := mk_walk (effective_chat_id u) (effective_user_id u)
                           (effective_user_full_name u) (clock e (w_reads w)) None]>
                   (walks db)
  /\ walks_seq db' = id
  /\ size (walks db') = S (size (walks db))
  /\ is_Some (chats db' !! effective_chat_id u)
  /\ (forall c row, chats db !! c = Some row -> chats db' !! c = Some row)
  /\ w_chat_data (log_walk u e w).2 = w_chat_data w.
Proof.
  cbv zeta. rewrite log_walk_db, log_walk_chat_data.
  unfold insert_walk; simpl.
  rewrite insert_or_ignore_chat_next_rowid, insert_or_ignore_chat_walks.
  split.
  { intros id' Hid'. apply max_rowid_ge in Hid'. unfold next_rowid. lia. }
  split; [unfold next_rowid; lia|].
  split; [done|]. split; [done|].
  split; [apply map_size_insert_None, next_rowid_fresh|].
  split; [apply insert_or_ignore_chat_present|].
  split; [|done].
  intros c row Hrow. unfold insert_or_ignore_chat.
  destruct (chats (w_db w) !! effective_chat_id u) eqn:E; [done|]. simpl.
  rewrite lookup_insert_ne; [done|]. intros <-. congruence.
Qed.

(** ** Handlers that only read *)

Lemma chat_stats_timestamps (cid : Z) (db : database) :
  match chat_stats cid db with
  | (O, first, last, _, _) => first = None /\ last = None
  | (S _, first, last, _, _) => is_Some first /\ is_Some last
  end.
Proof.
  unfold chat_stats.
  destruct (snd <$> merge_sort ts_asc (walks_of_chat cid db)) as [|r rows]; [done|].
  unfold stats_of_rows. split; [by eexists|].
  rewrite fmap_cons. generalize (ts_utc r). generalize (ts_utc <$> rows).
  intros l. induction l as [|b l IH]; intros a; [by eexists|].
  rewrite last_cons_cons. apply IH.
Qed.

(** [cmd_stats] leaves the store, the registry and the clock alone. *)
Lemma cmd_stats_frame (u : update) (e : env) (w : world) :
  w_db (cmd_stats u e w).2 = w_db w
  /\ w_chat_data (cmd_stats u e w).2 = w_chat_data w
  /\ w_reads (cmd_stats u e w).2 = w_reads w.
Proof.
  unfold cmd_stats. run_handler.
  destruct (chat_stats _ _) as [[[[[|n] [f|]] [l|]] avg] tally]; simpl;
    try done; by destruct (telegram e _).
Qed.

Lemma digest_chat_frame (cid : Z) (e : env) (w : world) :
  w_db (digest_chat cid e w).2 = w_db w
  /\ w_chat_data (digest_chat cid e w).2 = w_chat_data w
  /\ w_reads (digest_chat cid e w).2 = w_reads w.
Proof.
  unfold digest_chat. run_handler.
  destruct (chat_stats _ _) as [[[[[|n] f] [l|]] avg] tally]; simpl;
    try done; by destruct (telegram e _).
Qed.

(** A loop keeps what each of its rounds keeps. *)
Lemma for_each_keeps {A} (R : relation world)
    (body : A -> M unit) (l : list A) (e : env) (w : world) :
  (forall w0, R w0 w0) ->
  (forall w0 w1 w2, R w0 w1 -> R w1 w2 -> R w0 w2) ->
  (forall x w0, R w0 (body x e w0).2) -> R w (for_each l body e w).2.
Proof.
  intros Hrefl Htrans Hbody. revert w.
  induction l as [|x l IH]; intros w; simpl; [apply Hrefl|].
  unfold mbind, M_bind. specialize (Hbody x w).
  destruct (body x e w) as [[[]|ex] w1]; simpl in *; [|done].
  by eapply Htrans.
Qed.

Lemma daily_digest_frame (e : env) (w : world) :
  w_db (daily_digest e w).2 = w_db w
  /\ w_chat_data (daily_digest e w).2 = w_chat_data w
  /\ w_reads (daily_digest e w).2 = w_reads w.
Proof.
  unfold daily_digest. run_handler.
  apply (for_each_keeps
           (fun w0 w1 => w_db w1 = w_db w0 /\ w_chat_data w1 = w_chat_data w0
                         /\ w_reads w1 = w_reads w0)).
  - by intros ?.
  - intros w0 w1 w2 (-> & -> & ->) (-> & -> & ->). done.
  - intros cid w0. apply digest_chat_frame.
Qed.

(** The free-text trigger either reports a walk or does nothing at all. *)
Lemma keyword_listener_cases (str_strip str_lower : string -> string)
    (t : option string) (u : update) (e : env) (w : world) :
  keyword_listener str_strip str_lower t u e w = log_walk u e w
  \/ keyword_listener str_strip str_lower t u e w = (Returned (), w).
Proof. unfold keyword_listener. destruct (existsb _ _); auto. Qed.

(** ** Chat rows are kept *)

Lemma chat_rows_kept_refl (db : database) : chat_rows_kept db db.
Proof. intros c row Hrow. exists row. auto. Qed.

Lemma chat_rows_kept_trans (db1 db2 db3 : database) :
  chat_rows_kept db1 db2 -> chat_rows_kept db2 db3 -> chat_rows_kept db1 db3.
Proof.
  intros H12 H23 c row Hrow.
  destruct (H12 c row Hrow) as (row2 & Hrow2 & Ht2 & Hl2).
  destruct (H23 c row2 Hrow2) as (row3 & Hrow3 & Ht3 & Hl3).
  exists row3. split; [done|]. split; [congruence|].
  destruct Hl3 as [Hl3|?]; [|by right].
  destruct Hl2 as [Hl2|Hl2]; [left; congruence|right; by rewrite Hl3].
Qed.

Lemma insert_or_ignore_chat_row (cid c : Z) (t : option string) (db : database)
    (row : chat) :
  chats db !! c = Some row -> chats (insert_or_ignore_chat cid t db) !! c = Some row.
Proof.
  intros Hrow. unfold insert_or_ignore_chat.
  destruct (chats db !! cid) eqn:E; [done|]. simpl.
  rewrite lookup_insert_ne; [done|]. intros <-. congruence.
Qed.

Lemma start_db (u : update) (e : env) (w : world) :
  w_db (start u e w).2
  = insert_or_ignore_chat (effective_chat_id u) (effective_chat_title u) (w_db w).
Proof. unfold start. run_handler. by destruct (telegram e _). Qed.

Lemma maybe_alert_chat_chat_rows (e : env) (w : world) (cid : Z) :
  chat_rows_kept (w_db w) (w_db (maybe_alert_chat cid e w).2).
Proof.
  destruct (maybe_alert_chat_run e w cid) as [_ H]. cbv zeta in H.
  destruct (decide_alert _ _ _ _ _ _) as [|text].
  - destruct H as (_ & -> & _). apply chat_rows_kept_refl.
  - destruct H as [_ H].
    destruct (telegram e _); destruct H as [_ ->]; [|apply chat_rows_kept_refl].
    intros c row Hrow. unfold update_last_alert; simpl. rewrite lookup_alter.
    case_decide; [subst|].
    + rewrite Hrow. simpl. eexists. split; [done|]. split; [done|]. right. by eexists.
    + exists row. auto.
Qed.

(** X4: no event removes a row of [chats] or changes its title (a title,
    once stored, is never refreshed).  [last_alert_utc] is changed by nothing
    but the overdue sweep, which only ever sets it: reporting a walk, /start,
    votes, statistics, the digest and a restart leave the throttle of a chat
    as it is. *)
Theorem step_keeps_chat_rows (str_strip str_lower : string -> string) (ev : event)
    (e : env) (w : world) (c : Z) (row : chat) :
  chats (w_db w) !! c = Some row ->
  exists row',
    chats (w_db (step str_strip str_lower ev e w)) !! c = Some row'
    /\ title row' = title row
    /\ (last_alert_utc row' = last_alert_utc row
        \/ (ev = Request Tick /\ is_Some (last_alert_utc row'))).
Proof.
  intros Hrow.
  assert (Hsame : forall db', chats db' !! c = Some row ->
            exists row', chats db' !! c = Some row' /\ title row' = title row
              /\ (last_alert_utc row' = last_alert_utc row
                  \/ (ev = Request Tick /\ is_Some (last_alert_utc row'))))
    by (intros db' H; exists row; auto).
  assert (Hwalk : forall u, chats (w_db (log_walk u e w).2) !! c = Some row).
  { intros u. rewrite log_walk_db. unfold insert_walk; simpl.
    by apply insert_or_ignore_chat_row. }
  destruct ev as [[u|u|q|]|t u|u| |]; simpl.
  - apply Hsame. rewrite start_db. by apply insert_or_ignore_chat_row.
  - apply Hsame, Hwalk.
  - apply Hsame. rewrite handle_poop_vote_db.
    destruct (mapping !! data q) as [val|]; [|done].
    destruct (telegram e AnswerCallbackQuery); [|done].
    by destruct (update_latest_poop_tables val (message_chat_id q) (from_user_id q)
                   (w_db w)) as (-> & _).
  - unfold overdue_check. run_handler.
    assert (chat_rows_kept (w_db w)
              (w_db (for_each (w_chat_data w).*1 maybe_alert_chat e w).2)) as Hk.
    { apply (for_each_keeps (fun w0 w1 => chat_rows_kept (w_db w0) (w_db w1))).
      - intros w0. apply chat_rows_kept_refl.
      - intros w0 w1 w2. apply chat_rows_kept_trans.
      - intros cid w0. apply maybe_alert_chat_chat_rows. }
    destruct (Hk c row Hrow) as (row' & Hrow' & Ht & Hl).
    exists row'. split; [done|]. split; [done|].
    destruct Hl; auto.
  - apply Hsame.
    destruct (keyword_listener_cases str_strip str_lower t u e w) as [->| ->];
      [apply Hwalk|done].
  - apply Hsame. by destruct (cmd_stats_frame u e w) as (-> & _).
  - apply Hsame. by destruct (daily_digest_frame e w) as (-> & _).
  - by apply Hsame.
Qed.

(** A second /start with another title keeps the title stored first. *)
Lemma step_keeps_chat_rows_witness :
  exists row',
    chats (w_db (step ascii_strip ascii_lower
                   (Request (Start (mk_update 7 (Some "Otro") 42 "Ana P" "Ana")))
                   (at_instant 0 always_delivers) two_chats_walked)) !! 7 = Some row'
    /\ title row' = Some "Casa"
    /\ (last_alert_utc row' = None
        \/ (Request (Start (mk_update 7 (Some "Otro") 42 "Ana P" "Ana")) = Request Tick
            /\ is_Some (last_alert_utc row'))).
Proof.
  apply (step_keeps_chat_rows ascii_strip ascii_lower
           (Request (Start (mk_update 7 (Some "Otro") 42 "Ana P" "Ana")))
           (at_instant 0 always_delivers) two_chats_walked 7 (mk_chat (Some "Casa") None)).
  vm_compute. reflexivity.
Defined.

(** ** From the poll to the vote *)

(** A walk of the pair that is strictly later than all its other walks is
    the one the subquery of the vote selects. *)
Lemma latest_walk_id_unique (cid uid : Z) (db : database) (id : Z) (row : walk) :
  walks db !! id = Some row -> chat_id row = cid -> user_id row = uid ->
  (forall id' row', walks db !! id' = Some row' -> chat_id row' = cid ->
     user_id row' = uid -> id' ≠ id -> ts_utc row' < ts_utc row) ->
  latest_walk_id cid uid db = Some id.
Proof.
  intros Hrow Hc Hu Hlater.
  destruct (latest_walk_id cid uid db) as [id0|] eqn:E.
  - apply latest_walk_id_Some in E as (row0 & Hrow0 & Hc0 & Hu0 & Hmax).
    destruct (decide (id0 = id)) as [->|Hne]; [done|].
    specialize (Hlater id0 row0 Hrow0 Hc0 Hu0 Hne).
    specialize (Hmax id row Hrow Hc Hu). lia.
  - apply latest_walk_id_None in E.
    assert ((id, row) ∈ walks_of_user cid uid db) as Hin
      by (by apply elem_of_walks_of_user).
    rewrite E in Hin. by apply elem_of_nil in Hin.
Qed.

(** X5: the poll that [log_walk] sends offers exactly the tokens that
    [handle_poop_vote] accepts: each button carries a key of [mapping] with a
    non-empty outcome, and [mapping] has no other key. *)
Theorem poll_offers_the_accepted_tokens (u : update) (e : env) (w : world) :
  exists text keyboard,
    attempted w (send_poop_poll u e w).2
    = [ReplyText (effective_chat_id u) text keyboard]
    /\ (forall label tok, (label, tok) ∈ keyboard ->
          exists val, mapping !! tok = Some val /\ val ≠ "")
    /\ (forall tok, is_Some (mapping !! tok) -> tok ∈ keyboard.*2).
Proof.
  eexists _, _. split.
  { unfold send_poop_poll, attempted, tg.
    destruct (telegram e _); simpl; by rewrite drop_app_length. }
  split.
  - intros label tok Hin.
    repeat (apply elem_of_cons in Hin as [[= -> ->]|Hin];
            [eexists; split; [reflexivity|done]|]).
    by apply elem_of_nil in Hin.
  - intros tok Htok. simpl.
    destruct (decide (tok ∈ ["poop_ok"; "poop_soft"; "poop_diarrhea"; "poop_none"]))
      as [Hin|Hout]; [done|].
    apply mapping_lookup_unknown in Hout. rewrite Hout in Htok. by destruct Htok.
Qed.

(** X6: reporting a walk and then answering with a token of the poll, by the
    same user in the same chat, stores the outcome on the walk just reported
    and changes no other row, provided the acknowledgement of the vote goes
    through and the new walk is later than the user's earlier walks in the
    chat (the clock did not step back). *)
Theorem vote_after_walk_sets_its_outcome
    (u : update) (q : callback_query) (val : string) (e e' : env) (w : world) :
  let cid := effective_chat_id u in
  let uid := effective_user_id u in
  let now := clock e (w_reads w) in
  message_chat_id q = cid ->
  from_user_id q = uid ->
  mapping !! data q = Some val ->
  telegram e' AnswerCallbackQuery = true ->
  (forall id row, walks (w_db w) !! id = Some row -> chat_id row = cid ->
     user_id row = uid -> ts_utc row < now) ->
  walks (w_db (handle_poop_vote q e' (log_walk u e w).2).2)
  = <[next_rowid (w_db w) := mk_walk cid uid (effective_user_full_name u) now (Some val)]>
      (walks (w_db w)).
Proof.
  cbv zeta. intros Hc Hu Hval Hack Hearlier.
  rewrite handle_poop_vote_db, Hval, Hack, Hc, Hu.
  destruct (update_latest_poop_tables val (effective_chat_id u) (effective_user_id u)
              (w_db (log_walk u e w).2)) as (_ & _ & ->).
  rewrite (latest_walk_id_unique _ _ _ (next_rowid (w_db w))
             (mk_walk (effective_chat_id u) (effective_user_id u)
                (effective_user_full_name u) (clock e (w_reads w)) None)); try done.
  - rewrite log_walk_db. unfold insert_walk; simpl.
    rewrite insert_or_ignore_chat_next_rowid, insert_or_ignore_chat_walks.
    by rewrite alter_insert_eq.
  - apply log_walk_rows. by left.
  - intros id' row' Hrow' Hc' Hu' Hne.
    apply log_walk_rows in Hrow' as [[-> _]|Hrow']; [done|]. simpl.
    by apply (Hearlier id' row').
Qed.

(** User 42 reports a second walk in chat 7 an hour after the first and
    answers "Blanda". *)
Lemma vote_after_walk_sets_its_outcome_witness :
  poop <$> walks (w_db (handle_poop_vote (mk_callback_query "poop_soft" 7 42)
                          (at_instant 0 always_delivers)
                          (log_walk (update_in 7)
                             (at_instant (utc 2024 1 15 7 0 0) always_delivers)
                             two_chats_walked).2).2) !! 3
  = Some (Some "Blanda").
Proof.
  rewrite (vote_after_walk_sets_its_outcome (update_in 7)
             (mk_callback_query "poop_soft" 7 42) "Blanda"
             (at_instant (utc 2024 1 15 7 0 0) always_delivers)
             (at_instant 0 always_delivers) two_chats_walked).
  - vm_compute. reflexivity.
  - reflexivity.
  - reflexivity.
  - vm_compute. reflexivity.
  - reflexivity.
  - intros id row Hrow Hc Hu.
    assert (Hrows : forall i r, walks (w_db two_chats_walked) !! i = Some r ->
                      ts_utc r = utc 2024 1 15 6 0 0).
    { intros i r. replace (walks (w_db two_chats_walked)) with
        (<[2 := mk_walk 8 42 "Ana P" (utc 2024 1 15 6 0 0) None]>
           (<[1 := mk_walk 7 42 "Ana P" (utc 2024 1 15 6 0 0) None]>
              (∅ : gmap Z walk))) by (vm_compute; reflexivity).
      rewrite !lookup_insert_Some, lookup_empty.
      intros [[_ <-]|[_ [[_ <-]|[_ ?]]]]; done. }
    rewrite (Hrows id row Hrow). vm_compute. reflexivity.
Defined.

(** ** Statistics of a chat *)

(** The result of the body of [chat_stats], component by component. *)
Lemma stats_of_rows_eq (rows : list walk) :
  stats_of_rows rows
  = (length rows, head (ts_utc <$> rows), last (ts_utc <$> rows),
     spec_average_gap_hours rows, foldl count_poop ∅ rows).
Proof.
  destruct rows as [|r1 rows]; [done|].
  unfold stats_of_rows, spec_average_gap_hours. rewrite gaps_of_consecutive.
  destruct rows as [|r2 rows]; done.
Qed.

(** The timestamps [chat_stats] works on: those of the chat, ascending. *)
Lemma chat_times_sorted (l : list (Z * walk)) :
  StronglySorted Z.le (ts_utc <$> (snd <$> merge_sort ts_asc l)).
Proof.
  rewrite <- list_fmap_compose.
  apply (StronglySorted_fmap _ ts_asc); [by intros ??|].
  apply StronglySorted_merge_sort; apply _.
Qed.

Lemma elem_of_chat_times (cid : Z) (db : database) (t : Z) :
  t ∈ ts_utc <$> (snd <$> merge_sort ts_asc (walks_of_chat cid db))
  <-> exists id row, walks db !! id = Some row /\ chat_id row = cid /\ ts_utc row = t.
Proof.
  rewrite <- list_fmap_compose, merge_sort_Permutation, list_elem_of_fmap. split.
  - intros ([id row] & -> & Hin). apply elem_of_walks_of_chat in Hin as [? ?].
    by exists id, row.
  - intros (id & row & Hrow & Hc & <-). exists (id, row). split; [done|].
    by apply elem_of_walks_of_chat.
Qed.

Lemma head_sorted_le (l : list Z) (a : Z) :
  StronglySorted Z.le l -> head l = Some a -> a ∈ l /\ forall y, y ∈ l -> a ≤ y.
Proof.
  destruct 1 as [|x l _ Hall]; [done|]. intros [= ->]. split; [left|].
  intros y Hy. apply elem_of_cons in Hy as [->|Hy]; [lia|].
  by eapply Forall_forall in Hall.
Qed.

Lemma last_sorted_le (l : list Z) (b : Z) :
  StronglySorted Z.le l -> last l = Some b -> b ∈ l /\ forall y, y ∈ l -> y ≤ b.
Proof.
  induction 1 as [|x l Hs IH Hall]; [done|].
  destruct l as [|x' l'].
  - intros [= ->]. split; [left|]. intros y Hy.
    apply list_elem_of_singleton in Hy as ->. lia.
  - rewrite last_cons_cons. intros Hlast.
    destruct (IH Hlast) as [Hin Hmax]. split; [by right|].
    intros y Hy. apply elem_of_cons in Hy as [->|Hy]; [|by apply Hmax].
    rewrite Forall_forall in Hall. by apply Hall.
Qed.

(** X7: of a chat with walks, [chat_stats] returns the earliest timestamp as
    first and the latest as last, and its last is what [last_walk_utc]
    returns; of a chat without walks it returns neither, and the total is 0
    exactly then. *)
Theorem chat_stats_first_last (cid : Z) (db : database) :
  let total := (chat_stats cid db).1.1.1.1 in
  let first := (chat_stats cid db).1.1.1.2 in
  let last_ := (chat_stats cid db).1.1.2 in
  last_ = last_walk_utc cid db
  /\ match first with
     | Some f =>
         (exists id row, walks db !! id = Some row /\ chat_id row = cid /\ ts_utc row = f)
         /\ forall id row, walks db !! id = Some row -> chat_id row = cid -> f ≤ ts_utc row
     | None => forall id row, walks db !! id = Some row -> chat_id row ≠ cid
     end
  /\ (total = 0%nat <-> last_walk_utc cid db = None).
Proof.
  cbv zeta. unfold chat_stats. rewrite stats_of_rows_eq. simpl.
  set (times := ts_utc <$> (snd <$> merge_sort ts_asc (walks_of_chat cid db))).
  pose proof (chat_times_sorted (walks_of_chat cid db)) as Hs. fold times in Hs.
  assert (Hnil : times = [] -> walks_of_chat cid db = []).
  { unfold times. intros E. apply fmap_nil_inv, fmap_nil_inv in E.
    by apply (head_sorted_None ts_asc), head_None. }
  split; [|split].
  - destruct (last times) as [b|] eqn:E.
    + symmetry. destruct (last_sorted_le times b Hs E) as [Hin Hmax].
      apply last_walk_utc_unique.
      * by apply elem_of_chat_times.
      * intros id row Hrow Hc. apply Hmax, elem_of_chat_times. eauto.
    + symmetry. apply last_walk_utc_None, Hnil. by apply last_None.
  - destruct (head times) as [a|] eqn:E.
    + destruct (head_sorted_le times a Hs E) as [Hin Hmin]. split.
      * by apply elem_of_chat_times.
      * intros id row Hrow Hc. apply Hmin, elem_of_chat_times. eauto.
    + apply head_None, Hnil in E. intros id row Hrow Hc.
      assert ((id, row) ∈ walks_of_chat cid db) as Hin
        by (by apply elem_of_walks_of_chat).
      rewrite E in Hin. by apply elem_of_nil in Hin.
  - rewrite length_fmap, last_walk_utc_None.
    rewrite <- (head_sorted_None ts_asc (walks_of_chat cid db)), head_None.
    by destruct (merge_sort ts_asc (walks_of_chat cid db)).
Qed.

(** The entry of a category in the tally, exactly. *)
Lemma tally_lookup_exact (rows : list walk) (m : gmap string nat) (k : string) :
  foldl count_poop m rows !! k =
    match m !! k with
    | Some v => Some (v + events_in_category k rows)%nat
    | None => match events_in_category k rows with
              | O => None
              | n => Some n
              end
    end.
Proof.
  revert m. induction rows as [|r rows IH]; intros m; simpl.
  - unfold events_in_category. rewrite filter_nil. simpl.
    destruct (m !! k); [by rewrite Nat.add_0_r|done].
  - rewrite IH. unfold count_poop at 1. rewrite lookup_insert.
    unfold events_in_category. rewrite filter_cons.
    destruct (decide (poop_or_unknown (poop r) = k)) as [->|Hne]; simpl.
    + destruct (m !! k); simpl; apply (f_equal Some); lia.
    + done.
Qed.

Lemma events_in_category_perm (k : string) (rows1 rows2 : list walk) :
  rows1 ≡ₚ rows2 -> events_in_category k rows1 = events_in_category k rows2.
Proof. unfold events_in_category. by intros ->. Qed.

(** The tally does not depend on the order of the rows. *)
Lemma tally_perm (rows1 rows2 : list walk) :
  rows1 ≡ₚ rows2 -> foldl count_poop ∅ rows1 = foldl count_poop ∅ rows2.
Proof.
  intros Hp. apply map_eq. intros k.
  by rewrite !tally_lookup_exact, (events_in_category_perm k _ _ Hp).
Qed.

(** Nor does anything else [chat_stats] returns: rows with equal timestamps
    may come in any order. *)
Lemma stats_of_sorted_perm (l1 l2 : list (Z * walk)) :
  l1 ≡ₚ l2 ->
  stats_of_rows (snd <$> merge_sort ts_asc l1)
  = stats_of_rows (snd <$> merge_sort ts_asc l2).
Proof.
  intros Hp. rewrite !stats_of_rows_eq.
  assert (Hrows : snd <$> merge_sort ts_asc l1 ≡ₚ snd <$> merge_sort ts_asc l2)
    by (by rewrite !merge_sort_Permutation, Hp).
  assert (Htimes : ts_utc <$> (snd <$> merge_sort ts_asc l1)
                   = ts_utc <$> (snd <$> merge_sort ts_asc l2)).
  { apply (StronglySorted_unique Z.le); [apply chat_times_sorted..|].
    by rewrite Hrows. }
  assert (Hlen : length (snd <$> merge_sort ts_asc l1)
                 = length (snd <$> merge_sort ts_asc l2))
    by (by rewrite Hrows).
  unfold spec_average_gap_hours. rewrite Htimes, Hlen.
  by rewrite (tally_perm _ _ Hrows).
Qed.

(** [chat_stats] reads nothing but the rows of its chat. *)
Lemma chat_stats_ext (cid : Z) (db1 db2 : database) :
  (forall id row, chat_id row = cid ->
     walks db1 !! id = Some row <-> walks db2 !! id = Some row) ->
  chat_stats cid db1 = chat_stats cid db2.
Proof.
  intros Hrows. unfold chat_stats. apply stats_of_sorted_perm.
  apply NoDup_Permutation.
  - apply NoDup_filter, NoDup_map_to_list.
  - apply NoDup_filter, NoDup_map_to_list.
  - intros [id row]. rewrite !elem_of_walks_of_chat. split.
    + intros [Hrow Hc]. split; [|done]. by apply Hrows.
    + intros [Hrow Hc]. split; [|done]. by apply Hrows.
Qed.

(** X8: the statistics of a chat change only through walks reported and
    votes cast in that chat.  Every other event (a walk or a vote in another
    chat, /start, the sweep, /stats, the digest, a restart) leaves the result
    of [chat_stats] for the chat exactly as it was. *)
Theorem chat_stats_changes_only_in_its_chat (str_strip str_lower : string -> string)
    (ev : event) (e : env) (w : world) (cid : Z) :
  event_chat ev ≠ Some cid ->
  chat_stats cid (w_db (step str_strip str_lower ev e w)) = chat_stats cid (w_db w).
Proof.
  intros Hother. apply chat_stats_ext. intros id row Hc.
  assert (Hwalk : forall u, effective_chat_id u ≠ cid ->
            walks (w_db (log_walk u e w).2) !! id = Some row
            <-> walks (w_db w) !! id = Some row).
  { intros u Hu. rewrite log_walk_rows. split; [|by right].
    intros [[_ ->]|H]; [|done]. by destruct Hu. }
  destruct ev as [[u|u|q|]|t u|u| |]; simpl in *.
  - by rewrite start_walks.
  - apply Hwalk. congruence.
  - rewrite handle_poop_vote_db.
    destruct (mapping !! data q) as [val|]; [|done].
    destruct (telegram e AnswerCallbackQuery); [|done].
    destruct (update_latest_poop_tables val (message_chat_id q) (from_user_id q)
                (w_db w)) as (_ & _ & ->).
    destruct (latest_walk_id _ _ _) as [id0|] eqn:Hsel; [|done].
    apply latest_walk_id_Some in Hsel as (row0 & Hrow0 & Hc0 & _).
    rewrite lookup_alter. case_decide; [subst id0|done].
    rewrite Hrow0. simpl. split; intros [= <-]; simpl in *; congruence.
  - unfold overdue_check. run_handler. by rewrite for_each_maybe_alert_chat_walks.
  - destruct (keyword_listener_cases str_strip str_lower t u e w) as [->| ->];
      [|done].
    apply Hwalk. congruence.
  - by destruct (cmd_stats_frame u e w) as (-> & _).
  - by destruct (daily_digest_frame e w) as (-> & _).
  - done.
Qed.

(** A walk reported in chat 8 does not show in the statistics of chat 7. *)
Lemma chat_stats_changes_only_in_its_chat_witness :
  chat_stats 7 (w_db (step ascii_strip ascii_lower (Request (Walk (update_in 8)))
                        (at_instant (utc 2024 1 15 9 0 0) always_delivers)
                        two_chats_walked))
  = chat_stats 7 (w_db two_chats_walked).
Proof.
  apply (chat_stats_changes_only_in_its_chat ascii_strip ascii_lower
           (Request (Walk (update_in 8)))).
  simpl. discriminate.
Defined.

(** ** The categories listed by /stats and the digest *)

Lemma dict_incr_to_map (k : string) (items : list (string * nat)) :
  (list_to_map (dict_incr k items) : gmap string nat)
  = <[k := (default 0 ((list_to_map items : gmap string nat) !! k) + 1)%nat]>
      (list_to_map items).
Proof.
  induction items as [|[k' v] items IH]; simpl; [done|].
  destruct (decide (k' = k)) as [->|Hne]; simpl.
  - by rewrite lookup_insert_eq, insert_insert_eq.
  - rewrite IH, lookup_insert_ne by done. by apply insert_insert_ne.
Qed.

Lemma dict_incr_keys (k : string) (items : list (string * nat)) :
  (dict_incr k items).*1
  = if decide (k ∈ items.*1) then items.*1 else items.*1 ++ [k].
Proof.
  induction items as [|[k' v] items IH]; [done|].
  cbn [dict_incr]. destruct (decide (k' = k)) as [->|Hne]; rewrite !fmap_cons; cbn [fst].
  - by rewrite decide_True by left.
  - rewrite IH. destruct (decide (k ∈ items.*1)) as [Hin|Hout].
    + by rewrite decide_True by (by right).
    + rewrite decide_False; [done|].
      rewrite not_elem_of_cons. split; [congruence|done].
Qed.

Lemma dict_incr_sum (k : string) (items : list (string * nat)) :
  sum_list (dict_incr k items).*2 = S (sum_list items.*2).
Proof.
  induction items as [|[k' v] items IH]; [done|].
  cbn [dict_incr]. destruct (decide (k' = k)); csimpl; [lia|]. rewrite IH. lia.
Qed.

Lemma poop_items_foldl (rows : list walk) (items : list (string * nat)) :
  NoDup items.*1 ->
  let items' := foldl (fun its r => dict_incr (poop_or_unknown (poop r)) its) items rows in
  NoDup items'.*1
  /\ (list_to_map items' : gmap string nat) = foldl count_poop (list_to_map items) rows
  /\ sum_list items'.*2 = (sum_list items.*2 + length rows)%nat.
Proof.
  revert items. induction rows as [|r rows IH]; intros items Hnd; simpl.
  - split; [done|]. split; [done|lia].
  - destruct (IH (dict_incr (poop_or_unknown (poop r)) items)) as (H1 & H2 & H3).
    { rewrite dict_incr_keys. case_decide; [done|].
      apply NoDup_app. split; [done|]. split; [|apply NoDup_singleton].
      intros x Hx Hx'. apply list_elem_of_singleton in Hx' as ->. done. }
    split; [done|]. split.
    + rewrite H2. f_equal. apply dict_incr_to_map.
    + rewrite H3, dict_incr_sum. lia.
Qed.

Lemma poop_items_keys (rows : list walk) (items : list (string * nat)) :
  (foldl (fun its r => dict_incr (poop_or_unknown (poop r)) its) items rows).*1
  = foldl (fun keys r => if decide (poop_or_unknown (poop r) ∈ keys) then keys
                         else keys ++ [poop_or_unknown (poop r)])
      items.*1 rows.
Proof.
  revert items. induction rows as [|r rows IH]; intros items; simpl; [done|].
  by rewrite IH, dict_incr_keys.
Qed.

(** X9: the list of categories that /stats and the digest print is the tally
    of [chat_stats] in the order in which the categories first occur in the
    rows: every category that has walks is listed exactly once, with the
    number of its walks, no category is listed with a count of 0, and the
    counts add up to the number of rows. *)
Theorem poop_items_agree (rows : list walk) :
  NoDup (poop_items rows).*1
  /\ (poop_items rows).*1
     = foldl (fun keys r => if decide (poop_or_unknown (poop r) ∈ keys) then keys
                            else keys ++ [poop_or_unknown (poop r)])
         [] rows
  /\ (list_to_map (poop_items rows) : gmap string nat) = (stats_of_rows rows).2
  /\ (forall k n, (k, n) ∈ poop_items rows
                  <-> n = events_in_category k rows /\ n ≠ 0%nat)
  /\ sum_list (poop_items rows).*2 = length rows.
Proof.
  destruct (poop_items_foldl rows [] (NoDup_nil_2)) as (Hnd & Hmap & Hsum).
  fold (poop_items rows) in Hnd, Hmap, Hsum. simpl in Hmap, Hsum.
  split; [done|]. split; [apply (poop_items_keys rows [])|].
  split; [by rewrite stats_of_rows_eq|]. split; [|done].
  intros k n. rewrite elem_of_list_to_map by done.
  rewrite Hmap, tally_lookup_exact, lookup_empty.
  destruct (events_in_category k rows) as [|c]; split.
  - done.
  - intros [-> ?]. done.
  - intros [= <-]. done.
  - by intros [-> _].
Qed.

(** ** Quiet hours: what the date and a degenerate window do *)

Lemma is_quiet_by_time (c : config) (t : datetime) :
  is_quiet c t =
    if time_le (QUIET_START c) (QUIET_END c)
    then time_le (to_minute (QUIET_START c)) (time_of t)
         && time_le (time_of t) (to_minute (QUIET_END c))
    else time_le (to_minute (QUIET_START c)) (time_of t)
         || time_le (time_of t) (to_minute (QUIET_END c)).
Proof.
  destruct t as [y m d h mi sec us]. unfold is_quiet, replace_hm00; simpl.
  by rewrite !datetime_le_same_day.
Qed.

Lemma tuple_cmp_opp (a b : list Z) : tuple_cmp b a = CompOpp (tuple_cmp a b).
Proof.
  revert b. induction a as [|x a IH]; intros [|y b]; simpl; try done.
  rewrite (Z.compare_antisym x y). destruct (x ?= y); simpl; auto.
Qed.

Lemma tuple_cmp_Eq (a b : list Z) : tuple_cmp a b = Eq -> a = b.
Proof.
  revert b. induction a as [|x a IH]; intros [|y b]; simpl; try done.
  destruct (x ?= y) eqn:E; try done.
  apply Z.compare_eq in E as ->. intros H. f_equal. by apply IH.
Qed.

Lemma tuple_le_antisym (a b : list Z) :
  tuple_le a b = true -> tuple_le b a = true -> a = b.
Proof.
  unfold tuple_le. rewrite (tuple_cmp_opp a b).
  destruct (tuple_cmp a b) eqn:E; simpl; try done.
  intros _ _. by apply tuple_cmp_Eq.
Qed.

(** X10: [is_quiet] looks at the time of day only, never at the date.  When
    the two boundaries are the same time, the window does not wrap and is
    not empty: the one instant at that hour and minute with zero seconds and
    microseconds is quiet and no other is. *)
Theorem is_quiet_equal_boundaries (c : config) (t : datetime) :
  (forall t', time_of t' = time_of t -> is_quiet c t' = is_quiet c t)
  /\ (QUIET_START c = QUIET_END c ->
      (is_quiet c t = true <-> time_of t = to_minute (QUIET_START c))).
Proof.
  split.
  - intros t' Ht. by rewrite !is_quiet_by_time, Ht.
  - intros Heq. rewrite is_quiet_by_time, <- Heq.
    assert (time_le (QUIET_START c) (QUIET_START c) = true) as ->.
    { unfold time_le, tuple_le. by rewrite tuple_cmp_refl. }
    rewrite andb_true_iff. split.
    + intros [H1 H2].
      assert (time_fields (to_minute (QUIET_START c)) = time_fields (time_of t)) as H
        by (by apply tuple_le_antisym).
      destruct t; simpl in *. unfold to_minute, time_of in *. simpl in *.
      by injection H as <- <- <- <-.
    + intros ->. split; apply to_minute_le.
Qed.

(** ** The free-text trigger *)

Lemma starts_with_spec (t s : string) :
  starts_with t s = true <-> exists post, s = t +:+ post.
Proof.
  revert s. induction t as [|a t IH]; intros s; simpl.
  - split; [intros _; by exists s|done].
  - destruct s as [|b s]; [split; [done|by intros [? ?]]|].
    destruct (decide (a = b)) as [->|Hne].
    + rewrite IH. split; intros [post H]; exists post; [by rewrite H|by injection H].
    + split; [done|]. intros [post H]. by injection H as -> _.
Qed.

(** [is_infix t s] is Python's [t in s]: [t] occurs somewhere in [s]. *)
Lemma is_infix_spec (t s : string) :
  is_infix t s = true <-> exists pre post, s = pre +:+ t +:+ post.
Proof.
  induction s as [|b s IH]; simpl.
  - rewrite orb_false_r, starts_with_spec. split.
    + intros [post H]. by exists "", post.
    + intros (pre & post & H). destruct pre; [by exists post|done].
  - rewrite orb_true_iff, starts_with_spec, IH. split.
    + intros [[post H]|(pre & post & H)].
      * by exists "", post.
      * exists (String b pre), post. simpl. by rewrite H.
    + intros ([|a pre] & post & H).
      * left. by exists post.
      * right. exists pre, post. simpl in H. by injection H.
Qed.

(** X11: [keyword_listener] reports a walk exactly when the stripped and
    lowered text of the message contains one of the six triggers anywhere,
    also inside a longer word (so "out" in "about" counts), and otherwise
    does nothing at all: no write, no reply, no clock reading. *)
Theorem keyword_listener_triggers (str_strip str_lower : string -> string)
    (message_text : option string) (u : update) (e : env) (w : world) :
  let lowered := str_lower (str_lower (str_strip (default "" message_text))) in
  ((exists t pre post, t ∈ triggers /\ lowered = pre +:+ t +:+ post) ->
     keyword_listener str_strip str_lower message_text u e w = log_walk u e w)
  /\ ((forall t pre post, t ∈ triggers -> lowered ≠ pre +:+ t +:+ post) ->
      keyword_listener str_strip str_lower message_text u e w = (Returned (), w)).
Proof.
  cbv zeta. unfold keyword_listener.
  destruct (existsb _ triggers) eqn:E.
  - split; [done|]. intros Hno.
    apply existsb_exists in E as (t & Hin & Hinfix).
    apply is_infix_spec in Hinfix as (pre & post & H).
    destruct (Hno t pre post); [by apply list_elem_of_In|done].
  - split; [|done]. intros (t & pre & post & Hin & H).
    assert (existsb (fun t => is_infix t
              (str_lower (str_lower (str_strip (default "" message_text)))))
              triggers = true) as E'.
    { apply existsb_exists. exists t. split; [by apply list_elem_of_In|].
      apply is_infix_spec. eauto. }
    congruence.
Qed.

(** "Talking about dinner" reports a walk; "Hello Dora" does not. *)
Lemma keyword_listener_examples :
  keyword_listener ascii_strip ascii_lower (Some " Talking ABOUT dinner ")
    (update_in 7) (at_instant 0 always_delivers) init_world
  = log_walk (update_in 7) (at_instant 0 always_delivers) init_world
  /\ keyword_listener ascii_strip ascii_lower (Some "Hello Dora")
       (update_in 7) (at_instant 0 always_delivers) init_world
     = (Returned (), init_world)
  /\ keyword_listener ascii_strip ascii_lower None
       (update_in 7) (at_instant 0 always_delivers) init_world
     = (Returned (), init_world).
Proof. repeat split; vm_compute; reflexivity. Qed.

(** ** /stats and the daily digest *)

Lemma for_each_ext {A} (body1 body2 : A -> M unit) (l : list A) (e1 e2 : env) (w : world) :
  (forall x w0, body1 x e1 w0 = body2 x e2 w0) ->
  for_each l body1 e1 w = for_each l body2 e2 w.
Proof.
  intros Hbody. revert w. induction l as [|x l IH]; intros w; simpl; [done|].
  unfold mbind, M_bind. rewrite Hbody.
  destruct (body2 x e2 w) as [[[]|ex] w1]; [apply IH|done].
Qed.

(** X12: /stats and the daily digest never write to the store or to the
    registry and never read the clock: run under two different clocks they
    do exactly the same.  The digest headed "Resumen diario de ayer" is
    therefore not about yesterday; its figures are those of [chat_stats] over
    all walks of the chat. *)
Theorem stats_and_digest_only_read (c : config) (clock1 clock2 : nat -> Z)
    (deliver : tg_call -> bool) (u : update) (w : world) :
  let e1 := mk_env c clock1 deliver in
  let e2 := mk_env c clock2 deliver in
  cmd_stats u e1 w = cmd_stats u e2 w
  /\ daily_digest e1 w = daily_digest e2 w
  /\ (w_db (cmd_stats u e1 w).2 = w_db w
      /\ w_chat_data (cmd_stats u e1 w).2 = w_chat_data w
      /\ w_reads (cmd_stats u e1 w).2 = w_reads w)
  /\ (w_db (daily_digest e1 w).2 = w_db w
      /\ w_chat_data (daily_digest e1 w).2 = w_chat_data w
      /\ w_reads (daily_digest e1 w).2 = w_reads w).
Proof.
  cbv zeta. split; [|split].
  - unfold cmd_stats. run_handler.
    by destruct (chat_stats _ _) as [[[[[|n] [f|]] [l|]] avg] tally].
  - unfold daily_digest. run_handler. apply for_each_ext.
    intros cid w0. unfold digest_chat. run_handler.
    by destruct (chat_stats _ _) as [[[[[|n] f] [l|]] avg] tally].
  - split; [apply cmd_stats_frame|apply daily_digest_frame].
Qed.

Lemma chat_stats_total (cid : Z) (db : database) :
  (chat_stats cid db).1.1.1.1 = length (walks_of_chat cid db).
Proof.
  unfold chat_stats. rewrite stats_of_rows_eq. simpl.
  rewrite length_fmap. apply Permutation_length, merge_sort_Permutation.
Qed.

Lemma chat_stats_total_zero (cid : Z) (db : database) :
  (chat_stats cid db).1.1.1.1 = 0%nat <-> last_walk_utc cid db = None.
Proof.
  rewrite chat_stats_total, last_walk_utc_None. apply length_zero_iff_nil.
Qed.

(** X13: /stats answers with exactly one reply in every case: the fixed
    text when the chat has no walk, and otherwise the text built from the
    total, the first and last timestamp in local time, the mean gap and the
    categories; the handler raises only if that reply cannot be delivered. *)
Theorem cmd_stats_replies_once (u : update) (e : env) (w : world) :
  let cid := effective_chat_id u in
  let db := w_db w in
  exists text,
    attempted w (cmd_stats u e w).2 = [ReplyText cid text []]
    /\ (cmd_stats u e w).1
       = (if telegram e (ReplyText cid text []) then Returned ()
          else Raised (TelegramError (ReplyText cid text [])))
    /\ (last_walk_utc cid db = None -> text = no_walks_text)
    /\ (forall first last,
          (chat_stats cid db).1.1.1.2 = Some first ->
          (chat_stats cid db).1.1.2 = Some last ->
          text = stats_text (cfg e) (length (walks_of_chat cid db)) first last
                   (chat_stats cid db).1.2 (chat_poop_items cid db)).
Proof.
  cbv zeta.
  pose proof (chat_stats_timestamps (effective_chat_id u) (w_db w)) as Hts.
  pose proof (chat_stats_total (effective_chat_id u) (w_db w)) as Htot.
  pose proof (chat_stats_total_zero (effective_chat_id u) (w_db w)) as Hzero.
  unfold cmd_stats, attempted. run_handler.
  destruct (chat_stats (effective_chat_id u) (w_db w))
    as [[[[[|n] first] last] avg] tally]; simpl in *.
  - destruct Hts as [-> ->]. eexists. split.
    { destruct (telegram e _); simpl; by rewrite drop_app_length. }
    split; [by destruct (telegram e _)|]. split; [done|]. intros ? ? [=].
  - destruct Hts as [[f ->] [l ->]]. eexists. split.
    { destruct (telegram e _); simpl; by rewrite drop_app_length. }
    split; [by destruct (telegram e _)|]. split.
    + intros Hnone. apply Hzero in Hnone. done.
    + intros ? ? [= <-] [= <-]. by rewrite <- Htot.
Qed.

Lemma digest_chat_run (cid : Z) (e : env) (w : world) :
  digest_chat cid e w =
    match digest_message (cfg e) (w_db w) cid with
    | Some call => tg call e w
    | None => (Returned (), w)
    end.
Proof.
  unfold digest_chat, digest_message. run_handler.
  by destruct (chat_stats cid (w_db w)) as [[[[[|n] first] [last|]] avg] tally].
Qed.

Lemma digest_message_None (c : config) (db : database) (cid : Z) :
  digest_message c db cid = None <-> last_walk_utc cid db = None.
Proof.
  rewrite <- chat_stats_total_zero. unfold digest_message.
  pose proof (chat_stats_timestamps cid db) as Hts.
  destruct (chat_stats cid db) as [[[[[|n] first] last] avg] tally]; simpl in *;
    [done|].
  destruct Hts as [_ [l ->]]. done.
Qed.

(** The loop of the digest: what it logs and how it ends. *)
Lemma for_each_digest_chat (l : list Z) (e : env) (w : world) :
  exists calls,
    w_log (for_each l digest_chat e w).2 = w_log w ++ calls
    /\ calls `prefix_of` omap (digest_message (cfg e) (w_db w)) l
    /\ Forall (fun call => telegram e call = true) (removelast calls)
    /\ match (for_each l digest_chat e w).1 with
       | Returned _ => calls = omap (digest_message (cfg e) (w_db w)) l
                       /\ Forall (fun call => telegram e call = true) calls
       | Raised x => exists call, x = TelegramError call /\ last calls = Some call
                                  /\ telegram e call = false
       end.
Proof.
  revert w. induction l as [|cid l IH]; intros w.
  { exists []. simpl. by rewrite app_nil_r. }
  simpl for_each. unfold mbind, M_bind. rewrite digest_chat_run. simpl omap.
  destruct (digest_message (cfg e) (w_db w) cid) as [call|] eqn:Hm.
  - unfold tg. destruct (telegram e call) eqn:Hdel.
    + match goal with |- context [for_each l digest_chat e ?w1] =>
        destruct (IH w1) as (calls & Hlog & Hpre & Hok & Hres) end.
      simpl in Hlog, Hpre, Hres.
      exists (call :: calls). split; [by rewrite Hlog, <- app_assoc|].
      split; [by apply prefix_cons|]. split.
      * destruct calls; [done|]. simpl. constructor; [done|]. exact Hok.
      * match goal with |- match (for_each l digest_chat e ?w1).1 with _ => _ end =>
          destruct ((for_each l digest_chat e w1).1) end.
        -- destruct Hres as [-> Hall]. split; [done|]. by constructor.
        -- destruct Hres as (c' & -> & Hl & Hf). exists c'. split; [done|].
           split; [|done]. destruct calls; [done|]. by rewrite last_cons_cons.
    + exists [call]. simpl. split; [done|].
      split; [apply prefix_cons, prefix_nil|]. split; [done|]. eauto.
  - apply IH.
Qed.

(** X14: the daily digest goes through the registered chats in the order of
    the registry, sends one message to each chat that has a walk, none to a
    chat without walks (which does not stop the loop), and stops at the
    first message that cannot be delivered: the messages attempted are a
    prefix of the expected ones, all but the last were delivered, and all of
    them are attempted and delivered exactly when the handler returns. *)
Theorem daily_digest_messages (e : env) (w : world) :
  let expected := omap (digest_message (cfg e) (w_db w)) (w_chat_data w).*1 in
  let calls := attempted w (daily_digest e w).2 in
  calls `prefix_of` expected
  /\ Forall (fun call => telegram e call = true) (removelast calls)
  /\ (forall cid, digest_message (cfg e) (w_db w) cid = None
                  <-> last_walk_utc cid (w_db w) = None)
  /\ match (daily_digest e w).1 with
     | Returned _ => calls = expected
                     /\ Forall (fun call => telegram e call = true) calls
     | Raised x => exists call, x = TelegramError call /\ last calls = Some call
                                /\ telegram e call = false
     end.
Proof.
  cbv zeta. unfold daily_digest, attempted. run_handler.
  destruct (for_each_digest_chat (w_chat_data w).*1 e w)
    as (calls & Hlog & Hpre & Hok & Hres).
  rewrite Hlog, drop_app_length.
  split; [done|]. split; [done|]. split; [|done].
  intros cid. apply digest_message_None.
Qed.

(** ** The writes of an event *)

Lemma maybe_alert_chat_db_steps (e : env) (w : world) (cid : Z) :
  rtc db_step (w_db w) (w_db (maybe_alert_chat cid e w).2).
Proof.
  destruct (maybe_alert_chat_run e w cid) as [_ H]. cbv zeta in H.
  destruct (decide_alert _ _ _ _ _ _) as [|text] eqn:Hdec.
  - destruct H as (_ & -> & _). done.
  - destruct H as [_ H]. destruct (telegram e _); destruct H as [_ ->]; [|done].
    apply rtc_once, db_step_alert.
    unfold decide_alert in Hdec.
    destruct (last_walk_utc cid (w_db w)); [by eexists|done].
Qed.

(** Every event writes to the store through the four statements of
    [db_step] only. *)
Lemma step_db_steps (str_strip str_lower : string -> string) (ev : event)
    (e : env) (w : world) :
  rtc db_step (w_db w) (w_db (step str_strip str_lower ev e w)).
Proof.
  assert (Hwalk : forall u, rtc db_step (w_db w) (w_db (log_walk u e w).2)).
  { intros u. rewrite log_walk_db. eapply rtc_l; [apply db_step_chat|].
    apply rtc_once, db_step_walk, insert_or_ignore_chat_present. }
  destruct ev as [[u|u|q|]|t u|u| |]; simpl.
  - rewrite start_db. apply rtc_once, db_step_chat.
  - apply Hwalk.
  - rewrite handle_poop_vote_db.
    destruct (mapping !! data q) as [val|] eqn:Hval; [|done].
    destruct (telegram e AnswerCallbackQuery); [|done].
    by eapply rtc_once, db_step_vote.
  - unfold overdue_check. run_handler.
    apply (for_each_keeps (fun w0 w1 => rtc db_step (w_db w0) (w_db w1))).
    + done.
    + intros w0 w1 w2 ??. by etrans.
    + intros cid w0. apply maybe_alert_chat_db_steps.
  - destruct (keyword_listener_cases str_strip str_lower t u e w) as [->| ->];
      [apply Hwalk|done].
  - by destruct (cmd_stats_frame u e w) as (-> & _).
  - by destruct (daily_digest_frame e w) as (-> & _).
  - done.
Qed.

Lemma max_rowid_le (m : gmap Z walk) (b : Z) :
  0 ≤ b -> (forall id, is_Some (m !! id) -> id ≤ b) -> max_rowid m ≤ b.
Proof.
  intros Hb. unfold max_rowid.
  apply (map_fold_weak_ind
           (fun r m => (forall id, is_Some (m !! id) -> id ≤ b) -> r ≤ b)).
  - done.
  - intros i x m' r Hi IH Hall.
    assert (i ≤ b) by (apply Hall; rewrite lookup_insert_eq; by eexists).
    assert (r ≤ b); [|lia].
    apply IH. intros id Hid. apply Hall. rewrite lookup_insert_is_Some'. auto.
Qed.

Lemma last_walk_utc_is_Some (cid : Z) (db : database) :
  is_Some (last_walk_utc cid db)
  <-> exists id row, walks db !! id = Some row /\ chat_id row = cid.
Proof.
  split.
  - intros [t Ht]. apply last_walk_utc_Some in Ht as [(id & row & ? & ? & _) _].
    eauto.
  - intros (id & row & Hrow & Hc).
    destruct (last_walk_utc cid db) eqn:E; [by eexists|].
    by destruct (proj1 (last_walk_utc_none_iff cid db) E id row Hrow).
Qed.

(** Each of the four statements keeps the invariant of the store. *)
Lemma db_step_store_inv (db db' : database) :
  db_step db db' -> store_inv db -> store_inv db'.
Proof.
  intros Hstep (Hchat & Hseq & Hids & Hpoop & Halert).
  destruct Hstep as [cid t db|cid uid name ts db Hrow|tok val cid uid db Hval
                    |cid ts db Hlast].
  - (* INSERT OR IGNORE INTO chats *)
    assert (Hw : walks (insert_or_ignore_chat cid t db) = walks db)
      by apply insert_or_ignore_chat_walks.
    assert (Hl : forall c, last_walk_utc c (insert_or_ignore_chat cid t db)
                           = last_walk_utc c db).
    { intros c. unfold last_walk_utc, walks_of_chat. by rewrite Hw. }
    split; [|split; [|split; [|split]]].
    + intros id row. rewrite Hw. intros H.
      by apply insert_or_ignore_chat_keeps, (Hchat id row).
    + unfold insert_or_ignore_chat. by destruct (chats db !! cid).
    + intros id. rewrite Hw. unfold insert_or_ignore_chat.
      destruct (chats db !! cid); apply Hids.
    + intros id row s. rewrite Hw. apply Hpoop.
    + intros c t'. rewrite Hl. unfold select_last_alert, insert_or_ignore_chat.
      destruct (chats db !! cid) eqn:E; [apply Halert|]. simpl.
      rewrite lookup_insert. case_decide; [done|]. apply (Halert c t').
  - (* INSERT INTO walks *)
    assert (Hnext : next_rowid db = walks_seq db + 1).
    { unfold next_rowid.
      assert (max_rowid (walks db) ≤ walks_seq db); [|lia].
      apply max_rowid_le; [done|]. intros id Hid. apply Hids in Hid. lia. }
    split; [|split; [|split; [|split]]].
    + intros id row. unfold insert_walk; simpl. rewrite lookup_insert_Some.
      intros [[_ <-]|[_ H]]; [done|]. by apply (Hchat id row).
    + unfold insert_walk; simpl. lia.
    + intros id. unfold insert_walk; simpl.
      rewrite lookup_insert_is_Some', Hids, Hnext. lia.
    + intros id row s. unfold insert_walk; simpl. rewrite lookup_insert_Some.
      intros [[_ <-]|[_ H]]; [done|]. by apply (Hpoop id row).
    + intros c t' Hsel. apply last_walk_utc_is_Some.
      destruct (Halert c t' Hsel) as [t0 Ht0].
      apply last_walk_utc_Some in Ht0 as [(id & row & Hr & Hc & _) _].
      exists id, row. split; [|done]. by apply insert_walk_keeps.
  - (* UPDATE walks SET poop *)
    destruct (update_latest_poop_tables val cid uid db) as (Hc & Hs & Hw).
    assert (Hlook : forall id row', walks (update_latest_poop val cid uid db) !! id
                      = Some row' ->
              exists row, walks db !! id = Some row /\ chat_id row' = chat_id row
                /\ (poop row' = poop row \/ poop row' = Some val)).
    { intros id row'. rewrite Hw.
      destruct (latest_walk_id cid uid db) as [id0|]; [|by eauto].
      rewrite lookup_alter. case_decide; [subst|by eauto].
      destruct (walks db !! id) as [row|]; simpl; [|done].
      intros [= <-]. exists row. simpl. auto. }
    assert (Hsome : forall id, is_Some (walks (update_latest_poop val cid uid db) !! id)
                               <-> is_Some (walks db !! id)).
    { intros id. rewrite Hw. destruct (latest_walk_id cid uid db) as [id0|]; [|done].
      rewrite lookup_alter. case_decide; [subst|done]. by rewrite fmap_is_Some. }
    split; [|split; [|split; [|split]]].
    + intros id row' H. destruct (Hlook id row' H) as (row & Hr & -> & _).
      rewrite Hc. by apply (Hchat id row).
    + by rewrite Hs.
    + intros id. by rewrite Hsome, Hs.
    + intros id row' s H Hp. destruct (Hlook id row' H) as (row & Hr & _ & [Hq|Hq]).
      * apply (Hpoop id row s Hr). congruence.
      * exists tok. congruence.
    + intros c t' Hsel. apply last_walk_utc_is_Some.
      assert (select_last_alert c db = Some t') as Hsel'
        by (unfold select_last_alert in *; by rewrite <- Hc).
      destruct (Halert c t' Hsel') as [t0 Ht0].
      apply last_walk_utc_Some in Ht0 as [(id & row & Hr & Hcr & _) _].
      assert (is_Some (walks (update_latest_poop val cid uid db) !! id)) as [row' Hr']
        by (apply Hsome; by eexists).
      destruct (Hlook id row' Hr') as (row0 & Hr0 & Hc0 & _).
      exists id, row'. split; [done|]. congruence.
  - (* UPDATE chats SET last_alert_utc *)
    assert (Hl : forall c, last_walk_utc c (update_last_alert cid ts db)
                           = last_walk_utc c db) by done.
    split; [|split; [|split; [|split]]]; try done.
    + intros id row H. apply update_last_alert_keeps. by apply (Hchat id row).
    + intros c t'. rewrite Hl. unfold select_last_alert, update_last_alert; simpl.
      rewrite lookup_alter. case_decide; [by subst|]. apply (Halert c t').
Qed.

Lemma init_store_inv : store_inv init_db.
Proof.
  split; [apply walks_have_chat_init|]. split; [done|]. split; [|split].
  - intros id. simpl. rewrite lookup_empty. split; [by intros [? ?]|lia].
  - intros id row s. simpl. by rewrite lookup_empty.
  - intros cid t. unfold select_last_alert. simpl. by rewrite lookup_empty.
Qed.

Lemma rtc_db_step_store_inv (db db' : database) :
  rtc db_step db db' -> store_inv db -> store_inv db'.
Proof. induction 1; eauto using db_step_store_inv. Qed.

Lemma reachable_store_inv (w : world) : reachable w -> store_inv (w_db w).
Proof.
  induction 1 as [|str_strip str_lower ev e w _ IH]; [apply init_store_inv|].
  eapply rtc_db_step_store_inv; [apply step_db_steps|done].
Qed.

(** ** What holds in every reachable world *)

Lemma reachable_handle_all (rs : list request) (e : env) (w : world) :
  reachable w -> reachable (handle_all rs e w).
Proof.
  revert w. induction rs as [|r rs IH]; intros w Hw; [done|].
  apply IH. apply (reachable_step ascii_strip ascii_lower (Request r) e w Hw).
Qed.

Lemma reachable_two_chats_walked : reachable two_chats_walked.
Proof. apply reachable_handle_all, reachable_init. Qed.

(** X15: in every reachable world the two tables agree: the chat of every
    walk has its row in [chats] (walk and chat row are written in one
    transaction and nothing deletes a chat row), and a chat carries an alert
    stamp only if it has a walk. *)
Theorem reachable_tables_consistent (w : world) :
  reachable w ->
  (forall id row, walks (w_db w) !! id = Some row ->
     is_Some (chats (w_db w) !! chat_id row))
  /\ (forall cid t, select_last_alert cid (w_db w) = Some t ->
        exists id row, walks (w_db w) !! id = Some row /\ chat_id row = cid).
Proof.
  intros Hw. destruct (reachable_store_inv w Hw) as (Hchat & _ & _ & _ & Halert).
  split; [exact Hchat|].
  intros cid t Hsel. apply last_walk_utc_is_Some. by apply (Halert cid t).
Qed.

Lemma reachable_tables_consistent_witness :
  is_Some (chats (w_db two_chats_walked) !! 8).
Proof.
  destruct (reachable_tables_consistent two_chats_walked reachable_two_chats_walked)
    as [Hchat _].
  apply (Hchat 2 (mk_walk 8 42 "Ana P" (utc 2024 1 15 6 0 0) None)).
  vm_compute. reflexivity.
Defined.

(** X16: in every reachable world the ids of [walks] are exactly 1 up to the
    AUTOINCREMENT counter, so no walk was ever removed and the next walk gets
    the counter plus one, an id that was never used. *)
Theorem reachable_rowids_consecutive (w : world) :
  reachable w ->
  (forall id, is_Some (walks (w_db w) !! id) <-> 1 ≤ id ≤ walks_seq (w_db w))
  /\ next_rowid (w_db w) = walks_seq (w_db w) + 1.
Proof.
  intros Hw. destruct (reachable_store_inv w Hw) as (_ & Hseq & Hids & _).
  split; [exact Hids|].
  unfold next_rowid.
  assert (max_rowid (walks (w_db w)) ≤ walks_seq (w_db w)); [|lia].
  apply max_rowid_le; [done|]. intros id Hid. apply Hids in Hid. lia.
Qed.

Lemma reachable_rowids_consecutive_witness :
  next_rowid (w_db two_chats_walked) = walks_seq (w_db two_chats_walked) + 1.
Proof.
  apply (reachable_rowids_consecutive two_chats_walked reachable_two_chats_walked).
Defined.

Lemma mapping_values (tok val : string) :
  mapping !! tok = Some val -> val ∈ ["Normal"; "Blanda"; "Diarrea"; "none"].
Proof.
  unfold mapping; simpl. intros E.
  repeat (apply lookup_insert_Some in E as [[_ <-]|[_ E]]; [set_solver|]).
  by rewrite lookup_empty in E.
Qed.

(** X17: in every reachable world the [poop] column of a walk is NULL or one
    of "Normal", "Blanda", "Diarrea" and "none"; hence the entry "unknown" of
    the tally of [chat_stats] is exactly the number of walks of the chat that
    have no outcome yet. *)
Theorem reachable_outcomes (w : world) :
  reachable w ->
  (forall id row s, walks (w_db w) !! id = Some row -> poop row = Some s ->
     s ∈ ["Normal"; "Blanda"; "Diarrea"; "none"])
  /\ forall cid,
       default 0%nat ((chat_stats cid (w_db w)).2 !! "unknown")
       = length (filter (fun r => poop r = None) (snd <$> walks_of_chat cid (w_db w))).
Proof.
  intros Hw. destruct (reachable_store_inv w Hw) as (_ & _ & _ & Hpoop & _).
  split.
  - intros id row s Hrow Hs. destruct (Hpoop id row s Hrow Hs) as [tok Htok].
    by eapply mapping_values.
  - intros cid. unfold chat_stats. rewrite stats_of_rows_eq. simpl.
    rewrite tally_lookup, lookup_empty. simpl.
    rewrite unknown_counts_unset.
    + by rewrite merge_sort_Permutation.
    + apply Forall_forall. intros r Hr s Hs.
      apply list_elem_of_fmap in Hr as ([id row] & -> & Hin).
      rewrite merge_sort_Permutation in Hin.
      apply elem_of_walks_of_chat in Hin as [Hrow _].
      by apply (Hpoop id row s).
Qed.

Lemma reachable_outcomes_witness :
  default 0%nat ((chat_stats 7 (w_db two_chats_walked)).2 !! "unknown")
  = length (filter (fun r => poop r = None)
              (snd <$> walks_of_chat 7 (w_db two_chats_walked))).
Proof.
  apply (reachable_outcomes two_chats_walked reachable_two_chats_walked).
Defined.

(** ** The registry of chats *)

Lemma chat_data_setdefault_keys (cid : Z) (k : string) (cd : list (Z * gmap string unit)) :
  (chat_data_setdefault cid k cd).*1 = cd.*1.
Proof.
  unfold chat_data_setdefault. rewrite <- list_fmap_compose.
  apply list_fmap_ext. intros i [c d] _. simpl. by destruct (decide (c = cid)).
Qed.

Lemma chat_data_entry_keys (cid : Z) (cd : list (Z * gmap string unit)) :
  (chat_data_entry cid cd).*1 = if decide (cid ∈ cd.*1) then cd.*1 else cd.*1 ++ [cid].
Proof.
  unfold chat_data_entry. destruct (decide (cid ∈ cd.*1)); [done|].
  by rewrite fmap_app.
Qed.

Lemma start_chat_data (u : update) (e : env) (w : world) :
  w_chat_data (start u e w).2
  = chat_data_setdefault (effective_chat_id u) (pretty (effective_chat_id u))
      (chat_data_entry (effective_chat_id u) (w_chat_data w)).
Proof. unfold start. run_handler. by destruct (telegram e _). Qed.

Lemma handle_poop_vote_chat_data (q : callback_query) (e : env) (w : world) :
  w_chat_data (handle_poop_vote q e w).2 = w_chat_data w.
Proof.
  unfold handle_poop_vote. run_handler.
  destruct (telegram e AnswerCallbackQuery); simpl; [|done].
  destruct (mapping !! data q) as [val|]; simpl; [|done].
  destruct (decide (val = "")); simpl; [done|].
  by destruct (telegram e _).
Qed.

Lemma overdue_check_chat_data (e : env) (w : world) :
  w_chat_data (overdue_check e w).2 = w_chat_data w.
Proof.
  unfold overdue_check. run_handler.
  apply (for_each_keeps (fun w0 w1 => w_chat_data w1 = w_chat_data w0)).
  - done.
  - intros w0 w1 w2 H1 H2. by rewrite H2.
  - intros cid w0. by destruct (maybe_alert_chat_run e w0 cid) as [-> _].
Qed.

Lemma db_step_keeps_chat (db db' : database) (c : Z) :
  db_step db db' -> is_Some (chats db !! c) -> is_Some (chats db' !! c).
Proof.
  intros [cid t db0|cid uid name ts db0 _|tok val cid uid db0 _|cid ts db0 _] Hc.
  - by apply insert_or_ignore_chat_keeps.
  - done.
  - by destruct (update_latest_poop_tables val cid uid db0) as (-> & _).
  - by apply update_last_alert_keeps.
Qed.

Lemma rtc_db_step_keeps_chat (db db' : database) (c : Z) :
  rtc db_step db db' -> is_Some (chats db !! c) -> is_Some (chats db' !! c).
Proof. induction 1; eauto using db_step_keeps_chat. Qed.

Lemma start_keys (u : update) (e : env) (w : world) :
  (w_chat_data (start u e w).2).*1
  = if decide (effective_chat_id u ∈ (w_chat_data w).*1)
    then (w_chat_data w).*1
    else (w_chat_data w).*1 ++ [effective_chat_id u].
Proof. by rewrite start_chat_data, chat_data_setdefault_keys, chat_data_entry_keys. Qed.

(** X18: /start registers the chat whatever happens to its reply: the chat
    becomes a key of [application.chat_data] (appended when it is new, the
    other keys and their order unchanged) and has a row in [chats]; a second
    /start changes neither the registry nor the store. *)
Theorem start_registers (u : update) (e e' : env) (w : world) :
  let cid := effective_chat_id u in
  let keys := (w_chat_data w).*1 in
  let w' := (start u e w).2 in
  (w_chat_data w').*1 = (if decide (cid ∈ keys) then keys else keys ++ [cid])
  /\ cid ∈ (w_chat_data w').*1
  /\ is_Some (chats (w_db w') !! cid)
  /\ walks (w_db w') = walks (w_db w)
  /\ w_chat_data (start u e' w').2 = w_chat_data w'
  /\ w_db (start u e' w').2 = w_db w'.
Proof.
  cbv zeta.
  assert (Hkeys : (w_chat_data (start u e w).2).*1
            = if decide (effective_chat_id u ∈ (w_chat_data w).*1)
              then (w_chat_data w).*1
              else (w_chat_data w).*1 ++ [effective_chat_id u]).
  { by rewrite start_chat_data, chat_data_setdefault_keys, chat_data_entry_keys. }
  assert (Hin : effective_chat_id u ∈ (w_chat_data (start u e w).2).*1).
  { rewrite Hkeys. case_decide; [done|]. apply elem_of_app. right. left. }
  split; [done|]. split; [done|].
  split; [rewrite start_db; apply insert_or_ignore_chat_present|].
  split; [apply start_walks|]. split.
  - rewrite (start_chat_data u e'). unfold chat_data_entry.
    rewrite decide_True by done.
    rewrite (start_chat_data u e) at 2. rewrite start_chat_data.
    unfold chat_data_setdefault. rewrite <- list_fmap_compose.
    apply list_fmap_ext. intros i [c d] _. simpl.
    destruct (decide (c = effective_chat_id u)) as [->|Hne]; simpl.
    + rewrite decide_True by done.
      destruct (d !! pretty (effective_chat_id u)) eqn:E; simpl.
      * by rewrite E.
      * by rewrite lookup_insert_eq.
    + by rewrite decide_False by done.
  - rewrite (start_db u e'), start_db. unfold insert_or_ignore_chat at 1.
    destruct (insert_or_ignore_chat_present (effective_chat_id u)
                (effective_chat_title u) (w_db w)) as [row ->]. done.
Qed.

Lemma step_registry (str_strip str_lower : string -> string) (ev : event)
    (e : env) (w : world) :
  w_chat_data (step str_strip str_lower ev e w) = w_chat_data w
  \/ w_chat_data (step str_strip str_lower ev e w) = []
  \/ exists u, ev = Request (Start u).
Proof.
  destruct ev as [[u|u|q|]|t u|u| |]; simpl.
  - right. right. by exists u.
  - left. apply log_walk_chat_data.
  - left. apply handle_poop_vote_chat_data.
  - left. apply overdue_check_chat_data.
  - left. destruct (keyword_listener_cases str_strip str_lower t u e w) as [->| ->];
      [apply log_walk_chat_data|done].
  - left. by destruct (cmd_stats_frame u e w) as (_ & -> & _).
  - left. by destruct (daily_digest_frame e w) as (_ & -> & _).
  - right. by left.
Qed.

Lemma reachable_registry_inv (w : world) : reachable w -> registry_inv w.
Proof.
  induction 1 as [|str_strip str_lower ev e w Hw [Hnd Hrows]].
  { split; [apply NoDup_nil_2|]. intros cid Hin. by apply elem_of_nil in Hin. }
  pose proof (step_db_steps str_strip str_lower ev e w) as Hsteps.
  destruct (step_registry str_strip str_lower ev e w) as [Heq|[Heq|[u ->]]].
  - unfold registry_inv. rewrite Heq. split; [done|].
    intros cid Hin. eapply rtc_db_step_keeps_chat; eauto.
  - unfold registry_inv. rewrite Heq. split; [apply NoDup_nil_2|].
    intros cid Hin. by apply elem_of_nil in Hin.
  - simpl in *.
    pose proof (start_keys u e w) as Hkeys.
    assert (Hrow : is_Some (chats (w_db (start u e w).2) !! effective_chat_id u))
      by (rewrite start_db; apply insert_or_ignore_chat_present).
    unfold registry_inv. rewrite Hkeys. case_decide as Hin.
    + split; [done|]. intros cid Hc. eapply rtc_db_step_keeps_chat; eauto.
    + split.
      * apply NoDup_app. split; [done|]. split; [|apply NoDup_singleton].
        intros x Hx Hx'. apply list_elem_of_singleton in Hx' as ->. done.
      * intros cid Hc. apply elem_of_app in Hc as [Hc|Hc].
        -- eapply rtc_db_step_keeps_chat; eauto.
        -- apply list_elem_of_singleton in Hc as ->. exact Hrow.
Qed.

(** X19: in every reachable world a chat occurs at most once among the keys
    of [application.chat_data], and every registered chat has a row in
    [chats]. *)
Theorem reachable_registry (w : world) :
  reachable w ->
  NoDup (w_chat_data w).*1
  /\ forall cid, cid ∈ (w_chat_data w).*1 -> is_Some (chats (w_db w) !! cid).
Proof. apply reachable_registry_inv. Qed.

Lemma reachable_registry_witness : NoDup (w_chat_data two_chats_walked).*1.
Proof.
  apply (reachable_registry two_chats_walked reachable_two_chats_walked).
Defined.

(** ** Who the sweep writes to *)

Lemma for_each_maybe_alert_chat_log (l : list Z) (e : env) (w : world) :
  exists calls,
    w_log (for_each l maybe_alert_chat e w).2 = w_log w ++ calls
    /\ Forall (fun call => exists cid text, call = SendMessage cid text /\ cid ∈ l) calls
    /\ omap call_chat calls `sublist_of` l.
Proof.
  revert w. induction l as [|cid l IH]; intros w.
  { exists []. simpl. by rewrite app_nil_r. }
  simpl for_each. unfold mbind, M_bind.
  destruct (maybe_alert_chat_run e w cid) as [_ Hrun]. cbv zeta in Hrun.
  assert (Hweaken : forall calls,
            Forall (fun call => exists c text, call = SendMessage c text /\ c ∈ l) calls ->
            Forall (fun call => exists c text, call = SendMessage c text /\ c ∈ cid :: l)
              calls).
  { intros calls Hcalls. eapply Forall_impl; [exact Hcalls|].
    intros call (c & text & -> & Hc). exists c, text. split; [done|]. by right. }
  destruct (decide_alert _ _ _ _ _ _) as [|text].
  - destruct Hrun as (Hres & _ & Hlog).
    destruct (maybe_alert_chat cid e w) as [[[]|x] w1]; simpl in *; [|done].
    destruct (IH w1) as (calls & Hl & Hall & Hsub).
    exists calls. rewrite Hl, Hlog. split; [done|].
    split; [by apply Hweaken|by apply sublist_cons].
  - destruct Hrun as [Hlog Hrun].
    destruct (maybe_alert_chat cid e w) as [[[]|x] w1]; simpl in *.
    + destruct (IH w1) as (calls & Hl & Hall & Hsub).
      exists (SendMessage cid text :: calls).
      rewrite Hl, Hlog, <- app_assoc. split; [done|]. split.
      * constructor; [|by apply Hweaken]. exists cid, text. split; [done|left].
      * simpl. by apply sublist_skip.
    + exists [SendMessage cid text]. split; [done|]. split.
      * constructor; [|done]. exists cid, text. split; [done|left].
      * simpl. apply sublist_skip, sublist_nil_l.
Qed.

(** X20: in one sweep every Telegram call is a [send_message] to a chat of
    the registry, and the chats written to follow the order of the registry
    without repetition: a chat gets at most one alert per tick.  The sweep
    leaves the walks and the registry as they are. *)
Theorem overdue_check_recipients (e : env) (w : world) :
  let keys := (w_chat_data w).*1 in
  let calls := attempted w (overdue_check e w).2 in
  Forall (fun call => exists cid text, call = SendMessage cid text /\ cid ∈ keys) calls
  /\ omap call_chat calls `sublist_of` keys
  /\ (NoDup keys -> NoDup (omap call_chat calls))
  /\ walks (w_db (overdue_check e w).2) = walks (w_db w)
  /\ w_chat_data (overdue_check e w).2 = w_chat_data w.
Proof.
  cbv zeta.
  assert (Hatt : exists calls,
            attempted w (overdue_check e w).2 = calls
            /\ Forall (fun call => exists cid text,
                         call = SendMessage cid text /\ cid ∈ (w_chat_data w).*1) calls
            /\ omap call_chat calls `sublist_of` (w_chat_data w).*1).
  { unfold overdue_check, attempted. run_handler.
    destruct (for_each_maybe_alert_chat_log (w_chat_data w).*1 e w)
      as (calls & Hlog & Hall & Hsub).
    exists calls. by rewrite Hlog, drop_app_length. }
  destruct Hatt as (calls & -> & Hall & Hsub).
  split; [done|]. split; [done|]. split.
  - intros Hnd. by eapply sublist_NoDup.
  - split; [|apply overdue_check_chat_data].
    unfold overdue_check. run_handler. apply for_each_maybe_alert_chat_walks.
Qed.

(** ** From one alert to the next evaluation *)

(** X21: in a reachable world, once an alert for a chat has been delivered,
    every later evaluation of that chat whose throttle reading is less than
    six hours after the stamp of that alert sends nothing and leaves the
    store alone, as long as the stamp is still the chat's [last_alert_utc]:
    a delivered alert is never repeated within six hours. *)
Theorem no_second_alert_within_six_hours
    (e e2 : env) (w w2 : world) (cid : Z) (text : string) :
  reachable w ->
  attempted w (maybe_alert_chat cid e w).2 = [SendMessage cid text] ->
  telegram e (SendMessage cid text) = true ->
  let stamp := clock e (stamp_reading (select_last_alert cid (w_db w)) (w_reads w)) in
  select_last_alert cid (w_db w2)
  = select_last_alert cid (w_db (maybe_alert_chat cid e w).2) ->
  clock e2 (S (S (w_reads w2))) < stamp + six_hours ->
  (maybe_alert_chat cid e2 w2).1 = Returned ()
  /\ attempted w2 (maybe_alert_chat cid e2 w2).2 = []
  /\ w_db (maybe_alert_chat cid e2 w2).2 = w_db w2.
Proof.
  intros Hw Hsent Hdel. cbv zeta. intros Hsame Hlt.
  destruct (reachable_store_inv w Hw) as (Hchat & _).
  rewrite (delivered_alert_is_stamped e w cid text Hchat Hsent Hdel) in Hsame.
  pose proof (maybe_alert_chat_run e2 w2 cid) as [_ Hrun]. cbv zeta in Hrun.
  pose proof (maybe_alert_chat_attempted e2 w2 cid) as Hatt.
  rewrite Hsame in Hrun, Hatt. unfold decide_alert in Hrun, Hatt.
  match type of Hatt with context [bool_decide ?P] =>
    assert (bool_decide P = true) as Hthr by (apply bool_decide_eq_true; lia) end.
  rewrite Hthr in Hrun, Hatt.
  destruct (last_walk_utc cid (w_db w2)) as [last|];
    [destruct (_ <? _)%float; [|destruct (is_quiet _ _)]|];
    destruct Hrun as (? & ? & _); by rewrite Hatt.
Qed.

(** Chat 7 is alerted at 13:00 UTC; the sweep of 13:30 UTC leaves it alone. *)
Lemma no_second_alert_within_six_hours_witness :
  let e := at_instant (utc 2024 1 15 13 0 0) always_delivers in
  let e2 := at_instant (utc 2024 1 15 13 30 0) always_delivers in
  let w1 := (maybe_alert_chat 7 e two_chats_walked).2 in
  attempted two_chats_walked w1
  = [SendMessage 7 "⏰ Han pasado 7.0h desde la última salida de Dora. Alguien la puede sacar?"]
  /\ attempted w1 (maybe_alert_chat 7 e2 w1).2 = [].
Proof.
  cbv zeta. split; [vm_compute; reflexivity|].
  apply (no_second_alert_within_six_hours
           (at_instant (utc 2024 1 15 13 0 0) always_delivers)
           (at_instant (utc 2024 1 15 13 30 0) always_delivers)
           two_chats_walked
           (maybe_alert_chat 7 (at_instant (utc 2024 1 15 13 0 0) always_delivers)
              two_chats_walked).2
           7 "⏰ Han pasado 7.0h desde la última salida de Dora. Alguien la puede sacar?").
  - apply reachable_two_chats_walked.
  - vm_compute. reflexivity.
  - reflexivity.
  - reflexivity.
  - vm_compute. reflexivity.
Defined.
